(** * The optimisation and lowering pipeline of the compiler

    A shallow embedding of [compiler/optimizer.go]: the method
    [Compiler.Optimize] and its helper [Compiler.replacePanicsWithTrap],
    over a small model of the part of the LLVM API the two functions call
    directly.  The transforms they delegate to (the LLVM pass managers, the
    [transform] package, the lowering methods of the compiler, the module
    verifier, the GC passes) are taken as parameters, gathered in the
    record [Collaborators]. *)

From Stdlib Require Import List String ZArith NArith Bool Arith Lia.
Import ListNotations.
Local Open Scope string_scope.
Local Open Scope list_scope.
Local Open Scope nat_scope.

(** ** The IR: values, instructions, functions, modules *)

Inductive Ty : Type :=
| TVoid
| TInt (bits : nat)
| TPtr (elem : Ty)
| TFunc.

(** An [llvm.Value] is a handle.  [Nil] is the zero handle, which
    [NamedFunction] returns for a missing function and the [IsA...]
    casts return when the cast fails. *)
Inductive Value : Type :=
| Nil
| FuncRef (name : string)
| InstRef (id : nat)
| ConstPointerNull (t : Ty)
| OtherValue (k : nat) (t : Ty).

Inductive IntPredicate : Type := IntEQ | IntNE | IntOtherPredicate (k : nat).

Inductive Opcode : Type :=
| Call
| BitCast
| ICmp (p : IntPredicate)
| OtherOp (k : nat).

(** The operands of a call are its arguments followed by the called
    value, as in LLVM. *)
Record Instruction : Type := mkInst {
  inst_id : nat;
  opcode : Opcode;
  operands : list Value;
  inst_ty : Ty
}.

Inductive Linkage : Type :=
| ExternalLinkage
| InternalLinkage
| OtherLinkage (k : nat).

Inductive Attribute : Type := EnumAttribute (kind : string) (val : Z).

Record Function : Type := mkFunction {
  fn_name : string;
  fn_ret : Ty;
  fn_linkage : Linkage;
  fn_attrs : list Attribute;
  fn_blocks : list (list Instruction)
}.

(** [next_id] is the allocator of instruction handles: an instruction
    created by the builder gets the handle [next_id]. *)
Record Module : Type := mkModule {
  functions : list Function;
  next_id : nat
}.

Definition Ty_eq_dec (a b : Ty) : {a = b} + {a <> b}.
Proof. decide equality. apply Nat.eq_dec. Defined.

Definition Value_eq_dec (a b : Value) : {a = b} + {a <> b}.
Proof.
  decide equality; try apply Nat.eq_dec; try apply string_dec;
    apply Ty_eq_dec.
Defined.

Definition Attribute_eq_dec (a b : Attribute) : {a = b} + {a <> b}.
Proof. decide equality; [apply Z.eq_dec | apply string_dec]. Defined.

Definition Value_eqb (a b : Value) : bool :=
  if Value_eq_dec a b then true else false.

Definition IsNil (v : Value) : bool :=
  match v with Nil => true | _ => false end.

(** ** The LLVM API used by the optimizer *)

Definition block_insts (f : Function) : list Instruction :=
  List.concat (fn_blocks f).

Definition insts (m : Module) : list Instruction :=
  flat_map block_insts (functions m).

Definition lookup (m : Module) (id : nat) : option Instruction :=
  find (fun i => inst_id i =? id) (insts m).

(** [mod.NamedFunction(name)] *)
Definition NamedFunction (m : Module) (name : string) : Value :=
  if existsb (fun f => String.eqb (fn_name f) name) (functions m)
  then FuncRef name else Nil.

Definition ReturnType (m : Module) (fn : Value) : Ty :=
  match fn with
  | FuncRef name =>
      match find (fun f => String.eqb (fn_name f) name) (functions m) with
      | Some f => fn_ret f
      | None => TVoid
      end
  | _ => TVoid
  end.

(** [v.Operand(n)] *)
Definition Operand (m : Module) (v : Value) (n : nat) : Value :=
  match v with
  | InstRef id =>
      match lookup m id with
      | Some i => nth n (operands i) Nil
      | None => Nil
      end
  | _ => Nil
  end.

(** [v.IsABitCastInst()]: [v] itself when it is a bitcast instruction,
    the nil handle otherwise. *)
Definition IsABitCastInst (m : Module) (v : Value) : Value :=
  match v with
  | InstRef id =>
      match lookup m id with
      | Some (mkInst _ BitCast _ _) => v
      | _ => Nil
      end
  | _ => Nil
  end.

(** [v.IsACallInst()] *)
Definition IsACallInst (m : Module) (v : Value) : Value :=
  match v with
  | InstRef id =>
      match lookup m id with
      | Some (mkInst _ Call _ _) => v
      | _ => Nil
      end
  | _ => Nil
  end.

(** [v.CalledValue()]: the last operand of the call. *)
Definition CalledValue (m : Module) (v : Value) : Value :=
  match v with
  | InstRef id =>
      match lookup m id with
      | Some i => last (operands i) Nil
      | None => Nil
      end
  | _ => Nil
  end.

(** [v.Type()] *)
Definition TypeOf (m : Module) (v : Value) : Ty :=
  match v with
  | Nil => TVoid
  | FuncRef _ => TPtr TFunc
  | InstRef id =>
      match lookup m id with
      | Some i => inst_ty i
      | None => TVoid
      end
  | ConstPointerNull t => t
  | OtherValue _ t => t
  end.

(** Every in-place edit of the instruction lists is an instance of
    [expand]: each instruction is replaced, where it stands, by a list
    of instructions. *)
Definition expand_function (g : Instruction -> list Instruction)
    (f : Function) : Function :=
  mkFunction (fn_name f) (fn_ret f) (fn_linkage f) (fn_attrs f)
             (map (flat_map g) (fn_blocks f)).

Definition expand (g : Instruction -> list Instruction) (m : Module)
  : Module :=
  mkModule (map (expand_function g) (functions m)) (next_id m).

Definition uses_value (v : Value) (i : Instruction) : bool :=
  existsb (Value_eqb v) (operands i).

(** Modelled from the spec: [getUses] is a helper of the compiler
    package that is not part of the file.  The spec describes the
    use-list of a value as "the set of instructions referencing it";
    the model lists those instructions, each once, in module order. *)
Definition getUses (m : Module) (v : Value) : list Value :=
  if IsNil v then []
  else map (fun i => InstRef (inst_id i)) (filter (uses_value v) (insts m)).

(** The compiler state the two rewrites act on: the module [c.mod] and
    the insertion point of [c.builder]. *)
Record Compiler : Type := mkCompiler {
  cmod : Module;
  insert_point : Value
}.

(** [c.builder.SetInsertPointBefore(v)] *)
Definition SetInsertPointBefore (c : Compiler) (v : Value) : Compiler :=
  mkCompiler (cmod c) v.

Definition insert_before (u : nat) (new : Instruction) (i : Instruction)
  : list Instruction :=
  if inst_id i =? u then [new; i] else [i].

(** The builder creates the instruction with a fresh handle and puts it
    in front of the insertion point. *)
Definition build (c : Compiler) (op : Opcode) (ops : list Value) (t : Ty)
  : Compiler * Value :=
  let m := cmod c in
  let new := mkInst (next_id m) op ops t in
  let placed :=
    match insert_point c with
    | InstRef u => functions (expand (insert_before u new) m)
    | _ => functions m
    end in
  (mkCompiler (mkModule placed (S (next_id m))) (insert_point c),
   InstRef (next_id m)).

(** [c.builder.CreateICmp(pred, lhs, rhs, "")] *)
Definition CreateICmp (c : Compiler) (p : IntPredicate) (lhs rhs : Value)
  : Compiler * Value :=
  build c (ICmp p) [lhs; rhs] (TInt 1).

(** [c.builder.CreateCall(fn, args, "")] *)
Definition CreateCall (c : Compiler) (fn : Value) (args : list Value)
  : Compiler * Value :=
  build c Call (args ++ [fn]) (ReturnType (cmod c) fn).

Definition subst_value (old new v : Value) : Value :=
  if Value_eqb v old then new else v.

Definition subst_inst (old new : Value) (i : Instruction) : Instruction :=
  mkInst (inst_id i) (opcode i) (map (subst_value old new) (operands i))
         (inst_ty i).

(** [old.ReplaceAllUsesWith(new)] *)
Definition ReplaceAllUsesWith (c : Compiler) (old new : Value) : Compiler :=
  mkCompiler (expand (fun i => [subst_inst old new i]) (cmod c))
             (insert_point c).

Definition erase (u : nat) (i : Instruction) : list Instruction :=
  if inst_id i =? u then [] else [i].

(** [v.EraseFromParentAsInstruction()] *)
Definition EraseFromParentAsInstruction (c : Compiler) (v : Value)
  : Compiler :=
  match v with
  | InstRef u => mkCompiler (expand (erase u) (cmod c)) (insert_point c)
  | _ => c
  end.

(** [fn.SetLinkage(l)], for the function [NamedFunction] found. *)
Fixpoint set_linkage (name : string) (l : Linkage) (fs : list Function)
  : list Function :=
  match fs with
  | [] => []
  | f :: rest =>
      if String.eqb (fn_name f) name
      then mkFunction (fn_name f) (fn_ret f) l (fn_attrs f) (fn_blocks f)
             :: rest
      else f :: set_linkage name l rest
  end.

Definition SetLinkage (m : Module) (fn : Value) (l : Linkage) : Module :=
  match fn with
  | FuncRef name => mkModule (set_linkage name l (functions m)) (next_id m)
  | _ => m
  end.

(** [fn.AddFunctionAttr(attr)]: the attributes of a function are a set. *)
Definition AddFunctionAttr (a : Attribute) (f : Function) : Function :=
  if existsb (fun b => if Attribute_eq_dec a b then true else false)
             (fn_attrs f)
  then f
  else mkFunction (fn_name f) (fn_ret f) (fn_linkage f)
                  (fn_attrs f ++ [a]) (fn_blocks f).

(** ** Results, errors and the pipeline monad *)

(** A Go [error] value; [errors.New] builds one from its text. *)
Definition error : Type := string.

Definition errors_New (text : string) : error := text.

(** How a piece of the pipeline ends: it runs to its end, it makes
    [Optimize] return an error, or it panics. *)
Inductive Res (A : Type) : Type :=
| Done (a : A)
| Failed (e : error)
| Panicked (msg : string).

Arguments Done {A} a.
Arguments Failed {A} e.
Arguments Panicked {A} msg.

Definition M (S A : Type) : Type := S -> Res A * S.

Definition ret {S A : Type} (a : A) : M S A := fun s => (Done a, s).

Definition bind {S A B : Type} (m : M S A) (k : A -> M S B) : M S B :=
  fun s =>
    match m s with
    | (Done a, s') => k a s'
    | (Failed e, s') => (Failed e, s')
    | (Panicked msg, s') => (Panicked msg, s')
    end.

Definition fail {S A : Type} (e : error) : M S A := fun s => (Failed e, s).

Definition panic {S A : Type} (msg : string) : M S A :=
  fun s => (Panicked msg, s).

Declare Scope pipeline_scope.
Delimit Scope pipeline_scope with pipeline.

Notation "x <- m ;; k" := (bind m (fun x => k))
  (at level 61, m at next level, right associativity) : pipeline_scope.
Notation "m ;; k" := (bind m (fun _ => k))
  (at level 61, right associativity) : pipeline_scope.

Local Open Scope pipeline_scope.

(** ** The generic optimizer: pass-manager builder and pass managers *)

Record PassManagerBuilder : Type := mkBuilder {
  OptLevel : Z;
  SizeLevel : Z;
  Inliner : option N;
  CoroutinePasses : bool
}.

(** [llvm.NewPassManagerBuilder()]: LLVM's defaults, no inliner. *)
Definition NewPassManagerBuilder : PassManagerBuilder :=
  mkBuilder 2 0 None false.

Definition SetOptLevel (b : PassManagerBuilder) (l : Z) : PassManagerBuilder :=
  mkBuilder l (SizeLevel b) (Inliner b) (CoroutinePasses b).

Definition SetSizeLevel (b : PassManagerBuilder) (l : Z)
  : PassManagerBuilder :=
  mkBuilder (OptLevel b) l (Inliner b) (CoroutinePasses b).

Definition UseInlinerWithThreshold (b : PassManagerBuilder) (threshold : N)
  : PassManagerBuilder :=
  mkBuilder (OptLevel b) (SizeLevel b) (Some threshold) (CoroutinePasses b).

Definition AddCoroutinePassesToExtensionPoints (b : PassManagerBuilder)
  : PassManagerBuilder :=
  mkBuilder (OptLevel b) (SizeLevel b) (Inliner b) true.

(** A pass manager is the list of the passes added to it.  [Batch b]
    stands for the passes a builder configured as [b] populates a pass
    manager with, [FuncBatch b] for those it gives a function pass
    manager. *)
Inductive Pass : Type :=
| GlobalOptimizerPass
| ConstantPropagationPass
| AggressiveDCEPass
| FunctionAttrsPass
| Batch (b : PassManagerBuilder)
| FuncBatch (b : PassManagerBuilder).

Definition PassManager : Type := list Pass.

Definition NewPassManager : PassManager := [].
Definition NewFunctionPassManagerForModule : PassManager := [].
Definition AddGlobalOptimizerPass (p : PassManager) := p ++ [GlobalOptimizerPass].
Definition AddConstantPropagationPass (p : PassManager) :=
  p ++ [ConstantPropagationPass].
Definition AddAggressiveDCEPass (p : PassManager) := p ++ [AggressiveDCEPass].
Definition AddFunctionAttrsPass (p : PassManager) := p ++ [FunctionAttrsPass].
Definition Populate (b : PassManagerBuilder) (p : PassManager) := p ++ [Batch b].
Definition PopulateFunc (b : PassManagerBuilder) (p : PassManager) :=
  p ++ [FuncBatch b].

(** ** Collaborators and configuration *)

(** The transforms [Optimize] calls and does not define.  Each acts on
    the module; task lowering also returns an error or nil, the two GC
    passes report whether they changed the module, the verifier returns
    an error or nil. *)
Record Collaborators : Type := mkCollaborators {
  InitializeFunc : PassManager -> Module -> Module;
  RunFunc : PassManager -> Function -> Function;
  FinalizeFunc : PassManager -> Module -> Module;
  Run : PassManager -> Module -> Module;
  OptimizeMaps : Module -> Module;
  OptimizeStringToBytes : Module -> Module;
  OptimizeAllocs : Module -> Module;
  LowerInterfaces : Module -> Module;
  LowerFuncValues : Module -> Module;
  LowerGoroutines : Module -> Module * option error;
  Verify : Module -> option error;
  (** Modelled from the spec: [checkModule] is a method of the compiler
      that is not part of the file.  The spec gives the verification
      checker a pass/fail verdict ([true]: the module passes). *)
  checkModule : Module -> bool;
  getFunctionsUsedInTransforms : list string;
  addGlobalsBitmap : Module -> Module * bool;
  makeGCStackSlots : Module -> Module * bool
}.

(** The fields of the compiler that [Optimize] reads and never writes. *)
Record Config : Type := mkConfig {
  PanicStrategy : string;
  VerifyIR : bool
}.

Inductive Checkpoint : Type := AfterLowering | AfterGC.

(** The log of a run: one event per step of [Optimize], in the order
    the steps ran, with what the step reported. *)
Inductive Event : Type :=
| EvReplacePanicsWithTrap
| EvCheckModule (ok : bool)
| EvInitializeFunc (fp : PassManager)
| EvRunFuncs (fp : PassManager)
| EvFinalizeFunc (fp : PassManager)
| EvRun (pm : PassManager)
| EvOptimizeMaps
| EvOptimizeStringToBytes
| EvOptimizeAllocs
| EvLowerInterfaces
| EvLowerFuncValues
| EvNilCheckLowering
| EvLowerGoroutines (err : option error)
| EvVerify (at_ : Checkpoint) (err : option error)
| EvOptsize
| EvLinkageFinalizer
| EvAddGlobalsBitmap (changed : bool)
| EvMakeGCStackSlots (changed : bool).

Record RunState : Type := mkRun {
  compiler : Compiler;
  trace : list Event
}.

Definition the_module (s : RunState) : Module := cmod (compiler s).

Definition with_module (s : RunState) (m : Module) (ev : Event) : RunState :=
  mkRun (mkCompiler m (insert_point (compiler s))) (trace s ++ [ev]).

(** A step that rewrites the module. *)
Definition transform (ev : Event) (f : Module -> Module) : M RunState unit :=
  fun s => (Done tt, with_module s (f (the_module s)) ev).

(** A step that rewrites the module and reports a value. *)
Definition transform_with {A : Type} (ev : A -> Event)
    (f : Module -> Module * A) : M RunState A :=
  fun s => let (m, a) := f (the_module s) in (Done a, with_module s m (ev a)).

(** A step that only inspects the module. *)
Definition inspect {A : Type} (ev : A -> Event) (f : Module -> A)
  : M RunState A :=
  fun s => let a := f (the_module s) in
           (Done a, with_module s (the_module s) (ev a)).

(** A step on the compiler state (module and builder). *)
Definition on_compiler (ev : Event) (f : M Compiler unit) : M RunState unit :=
  fun s => let (r, c) := f (compiler s) in (r, mkRun c (trace s ++ [ev])).

(** A rewrite done with the builder of the compiler. *)
Definition rewrite_with (ev : Event) (f : Compiler -> Compiler)
  : M RunState unit :=
  fun s => (Done tt, mkRun (f (compiler s)) (trace s ++ [ev])).

(** ** PanicTrapRewriter: [replacePanicsWithTrap] *)

Definition panic_names : list string :=
  ["runtime._panic"; "runtime.runtimePanic"].

Definition not_a_call_message : string :=
  "expected use of a panic function to be a call".

(** The inner loop, over the uses of one panic function. *)
Fixpoint trap_uses (fn trap : Value) (uses : list Value) : M Compiler unit :=
  match uses with
  | [] => ret tt
  | use :: rest =>
      fun c =>
        if IsNil (IsACallInst (cmod c) use)
           || negb (Value_eqb (CalledValue (cmod c) use) fn)
        then panic not_a_call_message c
        else
          let c := SetInsertPointBefore c use in
          let (c, _) := CreateCall c trap [] in
          trap_uses fn trap rest c
  end.

(** The outer loop, over the names of the panic functions. *)
Fixpoint trap_names (trap : Value) (names : list string) : M Compiler unit :=
  match names with
  | [] => ret tt
  | name :: rest =>
      fun c =>
        let fn := NamedFunction (cmod c) name in
        if IsNil fn then trap_names trap rest c
        else (trap_uses fn trap (getUses (cmod c) fn) ;;
              trap_names trap rest) c
  end.

Definition replacePanicsWithTrap : M Compiler unit :=
  fun c =>
    let trap := NamedFunction (cmod c) "llvm.trap" in
    trap_names trap panic_names c.

(** ** NilCheckLowering: lines 67 to 81 of [Optimize] *)

Definition isnil_name : string := "runtime.isnil".

(** The body of the loop over the uses of [runtime.isnil]. *)
Definition lower_isnil_use (c : Compiler) (use : Value) : Compiler :=
  let c := SetInsertPointBefore c use in
  let ptr := Operand (cmod c) use 0 in
  let ptr :=
    if negb (IsNil (IsABitCastInst (cmod c) ptr))
    then Operand (cmod c) ptr 0 else ptr in
  let nilptr := ConstPointerNull (TypeOf (cmod c) ptr) in
  let (c, icmp) := CreateICmp c IntEQ ptr nilptr in
  let c := ReplaceAllUsesWith c use icmp in
  EraseFromParentAsInstruction c use.

Definition NilCheckLowering (c : Compiler) : Compiler :=
  let isnil := NamedFunction (cmod c) isnil_name in
  if negb (IsNil isnil)
  then fold_left lower_isnil_use (getUses (cmod c) isnil) c
  else c.

(** ** LinkageFinalizer: lines 110 to 117 of [Optimize] *)

Definition reset_linkage (m : Module) (name : string) : Module :=
  let fn := NamedFunction m name in
  if IsNil fn then m else SetLinkage m fn InternalLinkage.

Definition LinkageFinalizer (names : list string) (m : Module) : Module :=
  fold_left reset_linkage names m.

(** ** The size attribute: lines 100 to 108 of [Optimize] *)

Definition optsize : Attribute := EnumAttribute "optsize" 0.

Definition add_optsize (m : Module) : Module :=
  mkModule (map (AddFunctionAttr optsize) (functions m)) (next_id m).

(** ** The function-pass loop: [for fn := c.mod.FirstFunction(); ...] *)

Definition run_func_passes (K : Collaborators) (fp : PassManager)
    (m : Module) : Module :=
  mkModule (map (RunFunc K fp) (functions m)) (next_id m).

(** ** [Optimize] *)

Definition when {S : Type} (b : bool) (m : M S unit) : M S unit :=
  if b then m else ret tt.

(** Lines 13 to 20: the pass-manager builder. *)
Definition configure (optLevel sizeLevel : Z) (inlinerThreshold : N)
  : PassManagerBuilder :=
  let builder := NewPassManagerBuilder in
  let builder := SetOptLevel builder optLevel in
  let builder := SetSizeLevel builder sizeLevel in
  let builder :=
    if negb (inlinerThreshold =? 0)%N
    then UseInlinerWithThreshold builder inlinerThreshold
    else builder in
  AddCoroutinePassesToExtensionPoints builder.

(** Lines 43 to 48: the preparatory passes for the Go optimizer. *)
Definition goPasses : PassManager :=
  AddFunctionAttrsPass
    (AddAggressiveDCEPass
       (AddConstantPropagationPass
          (AddGlobalOptimizerPass NewPassManager))).

Definition verification_failure_message : string :=
  "optimizations caused a verification failure".

Definition gc_failure_message : string :=
  "GC pass caused a verification failure".

(** [err := c.LowerGoroutines(); if err != nil { return err }] *)
Definition lower_goroutines (K : Collaborators) : M RunState unit :=
  err <- transform_with EvLowerGoroutines (LowerGoroutines K) ;;
  match err with
  | Some e => fail e
  | None => ret tt
  end.

(** [if err := c.Verify(); err != nil { return errors.New(text) }] *)
Definition verify (K : Collaborators) (at_ : Checkpoint) (text : string)
  : M RunState unit :=
  err <- inspect (EvVerify at_) (Verify K) ;;
  match err with
  | Some _ => fail (errors_New text)
  | None => ret tt
  end.

(** Lines 41 to 95: the two branches on the optimisation level. *)
Definition LoweringSequencer (K : Collaborators) (optLevel : Z)
  : M RunState unit :=
  if (optLevel >? 0)%Z then
    transform (EvRun goPasses) (Run K goPasses) ;;
    transform EvOptimizeMaps (OptimizeMaps K) ;;
    transform EvOptimizeStringToBytes (OptimizeStringToBytes K) ;;
    transform EvOptimizeAllocs (OptimizeAllocs K) ;;
    transform EvLowerInterfaces (LowerInterfaces K) ;;
    transform EvLowerFuncValues (LowerFuncValues K) ;;
    transform (EvRun goPasses) (Run K goPasses) ;;
    transform EvOptimizeAllocs (OptimizeAllocs K) ;;
    transform EvOptimizeStringToBytes (OptimizeStringToBytes K) ;;
    rewrite_with EvNilCheckLowering NilCheckLowering ;;
    lower_goroutines K
  else
    transform EvLowerInterfaces (LowerInterfaces K) ;;
    transform EvLowerFuncValues (LowerFuncValues K) ;;
    lower_goroutines K.

(** Lines 132 to 138: the two GC passes and the check after them. *)
Definition GCInstrumentor (K : Collaborators) : M RunState unit :=
  hasGCPass <- transform_with EvAddGlobalsBitmap (addGlobalsBitmap K) ;;
  changed <- transform_with EvMakeGCStackSlots (makeGCStackSlots K) ;;
  let hasGCPass := changed || hasGCPass in
  when hasGCPass (verify K AfterGC gc_failure_message).

Definition Optimize (K : Collaborators) (cfg : Config)
    (optLevel sizeLevel : Z) (inlinerThreshold : N) : M RunState unit :=
  let builder := configure optLevel sizeLevel inlinerThreshold in
  when (String.eqb (PanicStrategy cfg) "trap")
       (on_compiler EvReplacePanicsWithTrap replacePanicsWithTrap) ;;
  when (VerifyIR cfg)
       (_ <- inspect EvCheckModule (checkModule K) ;; ret tt) ;;
  let funcPasses := PopulateFunc builder NewFunctionPassManagerForModule in
  transform (EvInitializeFunc funcPasses) (InitializeFunc K funcPasses) ;;
  transform (EvRunFuncs funcPasses) (run_func_passes K funcPasses) ;;
  transform (EvFinalizeFunc funcPasses) (FinalizeFunc K funcPasses) ;;
  LoweringSequencer K optLevel ;;
  verify K AfterLowering verification_failure_message ;;
  when (sizeLevel >=? 2)%Z (transform EvOptsize add_optsize) ;;
  transform EvLinkageFinalizer
            (LinkageFinalizer (getFunctionsUsedInTransforms K)) ;;
  transform (EvRunFuncs funcPasses) (run_func_passes K funcPasses) ;;
  transform (EvFinalizeFunc funcPasses) (FinalizeFunc K funcPasses) ;;
  let modPasses := Populate builder NewPassManager in
  transform (EvRun modPasses) (Run K modPasses) ;;
  GCInstrumentor K.

(** What the caller of [Optimize] sees: [nil], an error, or a panic. *)
Definition outcome (r : Res unit * RunState) : Res unit := fst r.

Definition final_trace (r : Res unit * RunState) : list Event :=
  trace (snd r).

Definition final_module (r : Res unit * RunState) : Module :=
  the_module (snd r).

(** A run starts on the module the frontend built, with an empty log. *)
Definition start (m : Module) : RunState := mkRun (mkCompiler m Nil) [].

(** ** Concrete collaborators and modules, for evaluating the pipeline *)

Module Sample.

(** Collaborators that leave the module as it is; task lowering ends
    with [task], the verifier with [ver], the leading check with [chk],
    the GC passes report [g1] and [g2]. *)
Definition collaborators (task ver : option error) (chk g1 g2 : bool)
  : Collaborators :=
  mkCollaborators
    (fun _ m => m) (fun _ f => f) (fun _ m => m) (fun _ m => m)
    (fun m => m) (fun m => m) (fun m => m) (fun m => m) (fun m => m)
    (fun m => (m, task)) (fun _ => ver) (fun _ => chk)
    ["runtime.alloc"; "runtime.free"]
    (fun m => (m, g1)) (fun m => (m, g2)).

Definition quiet : Collaborators := collaborators None None true false false.

Definition i8ptr : Ty := TPtr (TInt 8).

Definition declaration (name : string) (t : Ty) : Function :=
  mkFunction name t ExternalLinkage [] [].

(** A function that tests two pointers with [runtime.isnil], the first
    through a bitcast, and panics. *)
Definition main_blocks : list (list Instruction) :=
  [ [ mkInst 0 BitCast [OtherValue 0 (TPtr (TInt 32))] i8ptr;
      mkInst 1 Call [InstRef 0; FuncRef "runtime.isnil"] (TInt 1);
      mkInst 2 Call [OtherValue 1 i8ptr; FuncRef "runtime.isnil"] (TInt 1);
      mkInst 3 (OtherOp 0) [InstRef 1; InstRef 2] (TInt 1);
      mkInst 4 (OtherOp 1) [InstRef 3] TVoid ];
    [ mkInst 5 Call [OtherValue 2 i8ptr; FuncRef "runtime._panic"] TVoid;
      mkInst 6 (OtherOp 2) [] TVoid ];
    [ mkInst 7 Call [OtherValue 3 i8ptr; FuncRef "runtime.runtimePanic"]
              TVoid;
      mkInst 8 (OtherOp 2) [] TVoid ] ].

Definition program : Module :=
  mkModule
    [ declaration "llvm.trap" TVoid;
      declaration "runtime._panic" TVoid;
      declaration "runtime.runtimePanic" TVoid;
      declaration "runtime.isnil" (TInt 1);
      declaration "runtime.alloc" i8ptr;
      mkFunction "main" TVoid ExternalLinkage [] main_blocks ]
    9.

(** A module without the runtime functions. *)
Definition bare : Module :=
  mkModule
    [ mkFunction "main" TVoid ExternalLinkage []
        [ [ mkInst 0 (OtherOp 2) [] TVoid ] ] ]
    1.

(** A module that stores the address of [runtime._panic]. *)
Definition address_taken : Module :=
  mkModule
    [ declaration "llvm.trap" TVoid;
      declaration "runtime._panic" TVoid;
      mkFunction "main" TVoid ExternalLinkage []
        [ [ mkInst 0 (OtherOp 3)
              [FuncRef "runtime._panic"; OtherValue 0 i8ptr] TVoid;
            mkInst 1 (OtherOp 2) [] TVoid ] ] ]
    2.

End Sample.

Definition is_panicked {A : Type} (r : Res A) : bool :=
  match r with Panicked _ => true | _ => false end.

Definition is_failed_res {A : Type} (r : Res A) : bool :=
  match r with Failed _ => true | _ => false end.

(** * The vocabulary of the theorems *)

(** ** The order of the phases *)

(** The phases the level branch sequences: the generic bundle
    [goPasses], the domain-specific optimizers, the lowering transforms
    and NilCheckLowering. *)
Definition sequenced (ev : Event) : bool :=
  match ev with
  | EvRun [GlobalOptimizerPass; ConstantPropagationPass; AggressiveDCEPass;
           FunctionAttrsPass] => true
  | EvOptimizeMaps | EvOptimizeStringToBytes | EvOptimizeAllocs
  | EvLowerInterfaces | EvLowerFuncValues | EvNilCheckLowering
  | EvLowerGoroutines _ => true
  | _ => false
  end.

(** The generic bundle and the domain-specific optimizers. *)
Definition bundle_or_domain (ev : Event) : bool :=
  match ev with
  | EvRun [GlobalOptimizerPass; ConstantPropagationPass; AggressiveDCEPass;
           FunctionAttrsPass] => true
  | EvOptimizeMaps | EvOptimizeStringToBytes | EvOptimizeAllocs => true
  | _ => false
  end.


(** ** Failures *)




(** ** GC instrumentation *)

(** How the log of a run ends when the GC stage ran: with the two GC
    passes and no check, when neither changed the module; with the two
    GC passes and the check after them, when one did. *)
Definition ends_with_gc_stage (tr : list Event) : Prop :=
  match rev tr with
  | EvVerify AfterGC _ :: EvMakeGCStackSlots b2 :: EvAddGlobalsBitmap b1 :: _ =>
      b1 || b2 = true
  | EvMakeGCStackSlots b2 :: EvAddGlobalsBitmap b1 :: _ =>
      b1 || b2 = false
  | _ => False
  end.

(** ** The inliner *)

(** The pass managers [Optimize] runs are the bundle [goPasses] and
    those the builder populates. *)
Definition populated_by (b : PassManagerBuilder) (ev : Event) : Prop :=
  match ev with
  | EvInitializeFunc fp | EvRunFuncs fp | EvFinalizeFunc fp =>
      fp = [FuncBatch b]
  | EvRun pm => pm = goPasses \/ pm = [Batch b]
  | _ => True
  end.

(** ** LinkageFinalizer *)

Definition has_name (name : string) (f : Function) : bool :=
  String.eqb (fn_name f) name.

(** [f'] is [f], but for the linkage, which is the old one or, for a
    function named in [names], internal. *)
Definition relinked (names : list string) (f f' : Function) : Prop :=
  fn_name f' = fn_name f /\ fn_ret f' = fn_ret f
  /\ fn_attrs f' = fn_attrs f /\ fn_blocks f' = fn_blocks f
  /\ (fn_linkage f' = fn_linkage f
      \/ (In (fn_name f) names /\ fn_linkage f' = InternalLinkage)).

Definition relinked_module (names : list string) (m m' : Module) : Prop :=
  next_id m' = next_id m
  /\ Forall2 (relinked names) (functions m) (functions m').

(** The function a name denotes, if any, has internal linkage. *)
Definition internal_if_present (name : string) (m : Module) : Prop :=
  forall f, find (has_name name) (functions m) = Some f ->
            fn_linkage f = InternalLinkage.

(** The part of the log that follows LinkageFinalizer. *)
Fixpoint after_linkage (tr : list Event) : list Event :=
  match tr with
  | [] => []
  | EvLinkageFinalizer :: rest => rest
  | _ :: rest => after_linkage rest
  end.

Definition is_linkage (ev : Event) : bool :=
  match ev with EvLinkageFinalizer => true | _ => false end.

Definition passed_lowering_check (ev : Event) : bool :=
  match ev with EvVerify AfterLowering None => true | _ => false end.

(** Instruction handles are unique and below the allocator. *)
Fixpoint distinct (l : list nat) : bool :=
  match l with
  | [] => true
  | x :: rest => negb (existsb (Nat.eqb x) rest) && distinct rest
  end.

Definition handles_ok (m : Module) : bool :=
  distinct (map inst_id (insts m))
  && forallb (fun i => inst_id i <? next_id m) (insts m).

(** ** The trap rewriter: what it leaves and what it adds *)

(** The instructions of the module the rewriter started from are those
    with a handle below [N], the allocator of that module. *)
Definition keep_old (N : nat) (i : Instruction) : list Instruction :=
  if inst_id i <? N then [i] else [].

Definition originals (N : nat) (m : Module) : list Function :=
  functions (expand (keep_old N) m).

(** A call of [trap] without arguments, as [CreateCall(trap, nil, "")]
    builds it. *)
Definition is_trap_call (trap : Value) (i : Instruction) : bool :=
  match opcode i, operands i with
  | Call, [v] => Value_eqb v trap
  | _, _ => false
  end.

(** [m'] is [m0] with calls of [trap] added. *)
Definition grown (m0 : Module) (trap : Value) (m' : Module) : Prop :=
  originals (next_id m0) m' = functions m0
  /\ next_id m0 <= next_id m'
  /\ forall i, In i (insts m') -> next_id m0 <= inst_id i ->
               is_trap_call trap i = true.

(** One round of the inner loop: [SetInsertPointBefore(use)] and
    [CreateCall(trap, nil, "")]. *)
Definition add_trap (trap : Value) (c : Compiler) (use : Value) : Compiler :=
  fst (CreateCall (SetInsertPointBefore c use) trap []).

(** Within a block, every instruction that satisfies [P] comes
    immediately after one that satisfies [T]; [prev] tells whether the
    instruction before the block does. *)
Fixpoint guarded (P T : Instruction -> bool) (prev : bool)
    (b : list Instruction) : bool :=
  match b with
  | [] => true
  | i :: rest => (if P i then prev else true) && guarded P T (T i) rest
  end.

Definition all_guarded (P T : Instruction -> bool) (m : Module) : bool :=
  forallb (fun f => forallb (guarded P T false) (fn_blocks f)) (functions m).


(** The test of line 153, negated: the use is a call and calls [fn]. *)
Definition use_ok (m : Module) (fn : Value) (use : Value) : bool :=
  negb (IsNil (IsACallInst m use)
        || negb (Value_eqb (CalledValue m use) fn)).

(** Every use of the panic function [name], when the module has it, is
    a call of it: the use passes the test of line 153. *)
Definition name_ok (m : Module) (name : string) : bool :=
  let fn := NamedFunction m name in
  IsNil fn || forallb (use_ok m fn) (getUses m fn).

Definition all_uses_direct (m : Module) : bool :=
  forallb (name_ok m) panic_names.

Definition is_direct_call (fn : Value) (i : Instruction) : bool :=
  match opcode i with
  | Call => Value_eqb (last (operands i) Nil) fn
  | _ => false
  end.

(** A call of one of the panic functions of the module. *)
Definition panic_call (m : Module) (i : Instruction) : bool :=
  existsb (fun name =>
             let fn := NamedFunction m name in
             negb (IsNil fn) && is_direct_call fn i)
          panic_names.

(** Every call of a panic function comes immediately after a call of
    [llvm.trap], in its block. *)
Definition traps_precede_panics (m : Module) : bool :=
  all_guarded (panic_call m) (is_trap_call (NamedFunction m "llvm.trap")) m.

(** ** NilCheckLowering: the module it leaves *)

(** The pointer with one layer of bitcast removed, when it is a bitcast
    instruction. *)
Definition strip_cast (m : Module) (p : Value) : Value :=
  if negb (IsNil (IsABitCastInst m p)) then Operand m p 0 else p.

(** The comparison that replaces the call [i]: the pointer operand of
    the call, with one layer of cast removed, is compared for equality
    with the null pointer of its type. *)
Definition comparison (m : Module) (id : nat) (i : Instruction)
  : Instruction :=
  let p := strip_cast m (nth 0 (operands i) Nil) in
  mkInst id (ICmp IntEQ) [p; ConstPointerNull (TypeOf m p)] (TInt 1).

Fixpoint assoc (x : nat) (sm : list (nat * nat)) : option nat :=
  match sm with
  | [] => None
  | (k, y) :: rest => if k =? x then Some y else assoc x rest
  end.

(** Uses of the result of a replaced call become uses of the result of
    its comparison. *)
Definition redirect (sm : list (nat * nat)) (v : Value) : Value :=
  match v with
  | InstRef x =>
      match assoc x sm with
      | Some y => InstRef y
      | None => v
      end
  | _ => v
  end.

Definition redirect_inst (sm : list (nat * nat)) (i : Instruction)
  : Instruction :=
  mkInst (inst_id i) (opcode i) (map (redirect sm) (operands i)) (inst_ty i).

Definition lower_inst (m : Module) (sm : list (nat * nat)) (i : Instruction)
  : list Instruction :=
  match assoc (inst_id i) sm with
  | Some y => [comparison m y i]
  | None => [redirect_inst sm i]
  end.

(** The calls with handles [us] get the comparisons with the next
    handles of the allocator, in that order. *)
Definition site_map (N : nat) (us : list nat) : list (nat * nat) :=
  combine us (seq N (List.length us)).

(** The module with the calls [us] lowered, as the spec words it: each
    call replaced, where it stands, by its comparison, every use of its
    result redirected to the comparison, nothing else changed. *)
Definition lowered_with (m : Module) (us : list nat) : Module :=
  mkModule (functions (expand (lower_inst m (site_map (next_id m) us)) m))
           (List.length us + next_id m).

(** The handles of the uses of [runtime.isnil], in module order. *)
Definition site_handles (m : Module) : list nat :=
  let isnil := NamedFunction m isnil_name in
  if IsNil isnil then []
  else map inst_id (filter (uses_value isnil) (insts m)).

Definition lowered (m : Module) : Module := lowered_with m (site_handles m).

(** No operand names a handle the allocator has not given out. *)
Definition value_below (N : nat) (v : Value) : bool :=
  match v with InstRef x => x <? N | _ => true end.

Definition refs_ok (m : Module) : bool :=
  forallb (fun i => forallb (value_below (next_id m)) (operands i)) (insts m).

Definition is_pointer (t : Ty) : bool :=
  match t with TPtr _ => true | _ => false end.

Definition is_bool (t : Ty) : bool :=
  match t with TInt 1 => true | _ => false end.

(** A use of [runtime.isnil] is a well-typed call of it: it calls the
    helper, yields a boolean, and its first operand is a pointer that is
    not the helper itself, cast from a pointer when it is a cast. *)
Definition call_site_ok (m : Module) (isnil : Value) (i : Instruction)
  : bool :=
  let p := nth 0 (operands i) Nil in
  is_direct_call isnil i
  && is_bool (inst_ty i)
  && negb (Value_eqb p isnil)
  && is_pointer (TypeOf m p)
  && is_pointer (TypeOf m (strip_cast m p)).

Definition sites_ok (m : Module) : bool :=
  handles_ok m && refs_ok m
  && forallb (fun i =>
                implb (uses_value (NamedFunction m isnil_name) i)
                      (call_site_ok m (NamedFunction m isnil_name) i))
             (insts m).

(** A value that is not the result of one of the calls [us]. *)
Definition quiet (us : list nat) (v : Value) : Prop :=
  forall x, v = InstRef x -> ~ In x us.

(** What the loop needs of the module when the calls [us] are still to
    be lowered. *)
Definition lowerable (m : Module) (us : list nat) : Prop :=
  handles_ok m = true /\ refs_ok m = true /\ NoDup us
  /\ forall u, In u us ->
       exists i, lookup m u = Some i
                 /\ quiet us (nth 0 (operands i) Nil)
                 /\ quiet us (strip_cast m (nth 0 (operands i) Nil)).

(** ** Further vocabulary: attributes, pass managers, counts *)

Definition has_attr (a : Attribute) (f : Function) : bool :=
  existsb (fun b => if Attribute_eq_dec a b then true else false) (fn_attrs f).

(** [f'] is [f] with attributes added: nothing else differs, no
    attribute is lost, and an attribute [f] did not have is [a]. *)
Definition attr_added (a : Attribute) (f f' : Function) : Prop :=
  fn_name f' = fn_name f /\ fn_ret f' = fn_ret f
  /\ fn_linkage f' = fn_linkage f /\ fn_blocks f' = fn_blocks f
  /\ incl (fn_attrs f) (fn_attrs f')
  /\ forall b, In b (fn_attrs f') -> In b (fn_attrs f) \/ b = a.

Definition is_optsize_event (ev : Event) : bool :=
  match ev with EvOptsize => true | _ => false end.





(** Name, return type, linkage and attributes of the functions of a
    module, and the length of each of their blocks. *)
Definition signature (f : Function) : string * Ty * Linkage * list Attribute :=
  (fn_name f, fn_ret f, fn_linkage f, fn_attrs f).

Definition signatures (m : Module)
  : list (string * Ty * Linkage * list Attribute) :=
  map signature (functions m).

Definition block_lengths (m : Module) : list (list nat) :=
  map (fun f => map (@List.length Instruction) (fn_blocks f)) (functions m).


(** * Proofs *)

(** ** Stepping through a run

    One lemma per kind of step: to prove [P] of a run that starts with
    the step, prove it of the rest of the run from any state whose log
    is the old log with the event of the step appended. *)

Section Stepping.

Context {B : Type} (P : Res B * RunState -> Prop).

Lemma bind_ret {A : Type} (a : A) (k : A -> M RunState B) (s : RunState) :
  bind (ret a) k s = k a s.
Proof. reflexivity. Qed.

Lemma bind_fail {A : Type} (e : error) (k : A -> M RunState B)
    (s : RunState) :
  bind (fail e) k s = (Failed e, s).
Proof. reflexivity. Qed.

Lemma bind_bind {A C : Type} (m : M RunState A) (f : A -> M RunState C)
    (k : C -> M RunState B) (s : RunState) :
  bind (bind m f) k s = bind m (fun a => bind (f a) k) s.
Proof. unfold bind. destruct (m s) as [[a | e | msg] s']; reflexivity. Qed.

Lemma bind_ret_r (m : M RunState B) (s : RunState) :
  m s = bind m ret s.
Proof. unfold bind, ret. destruct (m s) as [[a | e | msg] s']; reflexivity. Qed.

Lemma step_transform (ev : Event) (f : Module -> Module)
    (k : unit -> M RunState B) (s : RunState) :
  (forall s', trace s' = trace s ++ [ev] -> P (k tt s')) ->
  P (bind (transform ev f) k s).
Proof. intros H. apply H. reflexivity. Qed.

Lemma step_rewrite_with (ev : Event) (f : Compiler -> Compiler)
    (k : unit -> M RunState B) (s : RunState) :
  (forall s', trace s' = trace s ++ [ev] -> P (k tt s')) ->
  P (bind (rewrite_with ev f) k s).
Proof. intros H. apply H. reflexivity. Qed.

Lemma step_transform_with {A : Type} (ev : A -> Event)
    (f : Module -> Module * A) (k : A -> M RunState B) (s : RunState) :
  (forall a s', trace s' = trace s ++ [ev a] -> P (k a s')) ->
  P (bind (transform_with ev f) k s).
Proof.
  intros H. unfold bind, transform_with.
  destruct (f (the_module s)) as [m a]. apply H. reflexivity.
Qed.

Lemma step_inspect {A : Type} (ev : A -> Event) (f : Module -> A)
    (k : A -> M RunState B) (s : RunState) :
  (forall a s', trace s' = trace s ++ [ev a] -> P (k a s')) ->
  P (bind (inspect ev f) k s).
Proof. intros H. apply H. reflexivity. Qed.

End Stepping.

(** The rewriter ends normally or panics; it never makes [Optimize]
    return an error. *)
Lemma trap_uses_no_error (fn trap : Value) (uses : list Value) (c : Compiler) :
  is_failed_res (fst (trap_uses fn trap uses c)) = false.
Proof.
  revert c. induction uses as [| use rest IH]; intros c; cbn.
  - reflexivity.
  - destruct (IsNil (IsACallInst (cmod c) use)
              || negb (Value_eqb (CalledValue (cmod c) use) fn)).
    + reflexivity.
    + destruct (CreateCall (SetInsertPointBefore c use) trap [])
        as [c' v]. apply IH.
Qed.

Lemma trap_names_no_error (trap : Value) (names : list string) (c : Compiler) :
  is_failed_res (fst (trap_names trap names c)) = false.
Proof.
  revert c. induction names as [| name rest IH]; intros c; cbn.
  - reflexivity.
  - destruct (IsNil (NamedFunction (cmod c) name)).
    + apply IH.
    + unfold bind.
      pose proof (trap_uses_no_error (NamedFunction (cmod c) name) trap
                    (getUses (cmod c) (NamedFunction (cmod c) name)) c) as H.
      destruct (trap_uses _ _ _ c) as [[[] | e | msg] c']; cbn in *.
      * apply IH.
      * discriminate.
      * reflexivity.
Qed.

Lemma step_replacePanicsWithTrap {B : Type} (P : Res B * RunState -> Prop)
    (k : unit -> M RunState B) (s : RunState) :
  (forall s', trace s' = trace s ++ [EvReplacePanicsWithTrap] ->
              P (k tt s')) ->
  (forall msg s', trace s' = trace s ++ [EvReplacePanicsWithTrap] ->
                  P (Panicked msg, s')) ->
  P (bind (on_compiler EvReplacePanicsWithTrap replacePanicsWithTrap) k s).
Proof.
  intros Hdone Hpanic. unfold bind, on_compiler.
  pose proof (trap_names_no_error
                (NamedFunction (cmod (compiler s)) "llvm.trap")
                panic_names (compiler s)) as H.
  unfold replacePanicsWithTrap.
  destruct (trap_names _ _ (compiler s)) as [[[] | e | msg] c']; cbn in H.
  - apply Hdone. reflexivity.
  - discriminate.
  - apply Hpanic. reflexivity.
Qed.

(** Steps through a whole run, splitting on every branch of it. *)
Ltac step_run :=
  repeat match goal with
  | |- _ (bind (transform _ _) _ _) => apply step_transform; intros ? ?
  | |- _ (bind (rewrite_with _ _) _ _) => apply step_rewrite_with; intros ? ?
  | |- _ (bind (on_compiler _ replacePanicsWithTrap) _ _) =>
      apply step_replacePanicsWithTrap; [intros ? ? | intros ? ? ?]
  | |- _ (bind (transform_with _ _) _ _) =>
      apply step_transform_with; intros ? ? ?
  | |- _ (bind (inspect _ _) _ _) => apply step_inspect; intros ? ? ?
  | |- _ (bind (bind _ _) _ _) => rewrite bind_bind
  | |- _ (bind (ret _) _ _) => rewrite bind_ret
  | |- _ (bind (fail _) _ _) => rewrite bind_fail
  | |- _ (bind (when ?b _) _ _) => destruct b eqn:?; unfold when at 1
  | |- _ (bind (match ?x with Some _ => _ | None => _ end) _ _) =>
      destruct x
  | |- _ (bind (if ?b then _ else _) _ _) => destruct b eqn:?
  end.

Ltac start_run :=
  match goal with
  | |- context [Optimize ?K ?cfg ?o ?z ?i ?s] =>
      rewrite (bind_ret_r (Optimize K cfg o z i) s);
      pattern (bind (Optimize K cfg o z i) ret s);
      match goal with
      | |- ?P _ => let Q := fresh "Q" in set (Q := P)
      end
  end;
  unfold Optimize, LoweringSequencer, GCInstrumentor, lower_goroutines,
    verify.

Ltac end_run :=
  match goal with
  | Q := _ |- _ => subst Q
  end;
  cbv beta; unfold ret, final_trace, final_module, outcome; cbn [fst snd];
  repeat match goal with
  | H : trace ?x = _ |- context [trace ?x] => rewrite H; clear H
  end.

(** ** The order of the phases *)

Lemma in_filtered {A : Type} (f : A -> bool) (x : A) (l : list A) :
  In x l -> f x = true -> In x (filter f l).
Proof. intros Hin Hf. apply filter_In. split; assumption. Qed.



(** C2: a run of [Optimize] with [optLevel = 0] that gets past the
    panic rewriter runs interface lowering, func-value lowering and
    task lowering, whatever the rest of the configuration, and none of
    the other sequenced phases: the generic bundle does not run, the
    domain-specific optimizers do not run, NilCheckLowering does not
    run.  The module task lowering receives is the module the function
    passes left, with the two other lowerings applied and nothing
    else. *)
Theorem unoptimised_phase_order (K : Collaborators) (cfg : Config)
    (sizeLevel : Z) (inlinerThreshold : N) (m : Module) :
  is_panicked
    (outcome (Optimize K cfg 0 sizeLevel inlinerThreshold (start m)))
    = false ->
  (exists err,
     filter sequenced
       (final_trace (Optimize K cfg 0 sizeLevel inlinerThreshold (start m)))
     = [EvLowerInterfaces; EvLowerFuncValues; EvLowerGoroutines err])
  /\ ~ In EvNilCheckLowering
         (final_trace (Optimize K cfg 0 sizeLevel inlinerThreshold (start m)))
  /\ ~ In (EvRun goPasses)
         (final_trace (Optimize K cfg 0 sizeLevel inlinerThreshold (start m)))
  /\ forall s,
       final_module (LoweringSequencer K 0 s)
       = fst (LowerGoroutines K
                (LowerFuncValues K (LowerInterfaces K (the_module s)))).
Proof.
  intros Hp.
  assert (Hseq : exists err,
     filter sequenced
       (final_trace (Optimize K cfg 0 sizeLevel inlinerThreshold (start m)))
     = [EvLowerInterfaces; EvLowerFuncValues; EvLowerGoroutines err]).
  { revert Hp. start_run. change (0 >? 0)%Z with false.
    step_run; end_run; cbn; intros Hp; try discriminate;
      eexists; reflexivity. }
  destruct Hseq as [err Hseq].
  split; [exists err; exact Hseq |].
  split; [| split].
  - intros Hin. apply (in_filtered sequenced) in Hin; [| reflexivity].
    rewrite Hseq in Hin. cbn in Hin.
    repeat (destruct Hin as [Hin | Hin]; [discriminate |]). exact Hin.
  - intros Hin. apply (in_filtered sequenced) in Hin; [| reflexivity].
    rewrite Hseq in Hin. cbn in Hin.
    repeat (destruct Hin as [Hin | Hin]; [discriminate |]). exact Hin.
  - intros s. unfold LoweringSequencer, lower_goroutines, final_module.
    change (0 >? 0)%Z with false.
    unfold bind, transform, transform_with, the_module, with_module.
    cbn [fst snd compiler cmod].
    destruct (LowerGoroutines K _) as [m' [e |]]; reflexivity.
Qed.

Lemma unoptimised_phase_order_witness :
  (exists err,
     filter sequenced
       (final_trace
          (Optimize Sample.quiet (mkConfig "trap" true) 0 2 0
                    (start Sample.program)))
     = [EvLowerInterfaces; EvLowerFuncValues; EvLowerGoroutines err])
  /\ ~ In EvNilCheckLowering
         (final_trace
            (Optimize Sample.quiet (mkConfig "trap" true) 0 2 0
                      (start Sample.program)))
  /\ ~ In (EvRun goPasses)
         (final_trace
            (Optimize Sample.quiet (mkConfig "trap" true) 0 2 0
                      (start Sample.program)))
  /\ forall s,
       final_module (LoweringSequencer Sample.quiet 0 s)
       = fst (LowerGoroutines Sample.quiet
                (LowerFuncValues Sample.quiet
                   (LowerInterfaces Sample.quiet (the_module s)))).
Proof.
  apply (unoptimised_phase_order Sample.quiet (mkConfig "trap" true) 2 0
           Sample.program).
  vm_compute. reflexivity.
Defined.

(** C9: at [optLevel > 0] the first domain-specific run is the map
    optimizer, the string-to-bytes optimizer and the allocation
    optimizer; the second, after the second run of the generic bundle,
    is the allocation optimizer and then the string-to-bytes optimizer,
    without the map optimizer.  Both the log of the run and the module
    handed to task lowering show it. *)
Theorem second_domain_run_skips_maps (K : Collaborators) (cfg : Config)
    (optLevel sizeLevel : Z) (inlinerThreshold : N) (m : Module) :
  (0 < optLevel)%Z ->
  is_panicked
    (outcome (Optimize K cfg optLevel sizeLevel inlinerThreshold (start m)))
    = false ->
  filter bundle_or_domain
    (final_trace
       (Optimize K cfg optLevel sizeLevel inlinerThreshold (start m)))
  = [EvRun goPasses; EvOptimizeMaps; EvOptimizeStringToBytes;
     EvOptimizeAllocs;
     EvRun goPasses; EvOptimizeAllocs; EvOptimizeStringToBytes]
  /\ forall s,
       final_module (LoweringSequencer K optLevel s)
       = fst (LowerGoroutines K
                (cmod
                   (NilCheckLowering
                      (mkCompiler
                         (OptimizeStringToBytes K
                            (OptimizeAllocs K
                               (Run K goPasses
                                  (LowerFuncValues K
                                     (LowerInterfaces K
                                        (OptimizeAllocs K
                                           (OptimizeStringToBytes K
                                              (OptimizeMaps K
                                                 (Run K goPasses
                                                    (the_module s))))))))))
                         (insert_point (compiler s)))))).
Proof.
  intros Hlevel Hp.
  apply Z.gtb_lt in Hlevel.
  split.
  - revert Hp. start_run. rewrite Hlevel.
    step_run; end_run; cbn; intros Hp; try discriminate; reflexivity.
  - intros s. unfold LoweringSequencer, lower_goroutines, final_module.
    rewrite Hlevel.
    unfold bind, transform, transform_with, rewrite_with, the_module,
      with_module.
    cbn [fst snd compiler cmod insert_point].
    destruct (LowerGoroutines K _) as [m' [e |]]; reflexivity.
Qed.

Lemma second_domain_run_skips_maps_witness :
  filter bundle_or_domain
    (final_trace
       (Optimize Sample.quiet (mkConfig "" false) 1 0 0
                 (start Sample.program)))
  = [EvRun goPasses; EvOptimizeMaps; EvOptimizeStringToBytes;
     EvOptimizeAllocs;
     EvRun goPasses; EvOptimizeAllocs; EvOptimizeStringToBytes]
  /\ forall s,
       final_module (LoweringSequencer Sample.quiet 1 s)
       = fst (LowerGoroutines Sample.quiet
                (cmod
                   (NilCheckLowering
                      (mkCompiler
                         (OptimizeStringToBytes Sample.quiet
                            (OptimizeAllocs Sample.quiet
                               (Run Sample.quiet goPasses
                                  (LowerFuncValues Sample.quiet
                                     (LowerInterfaces Sample.quiet
                                        (OptimizeAllocs Sample.quiet
                                           (OptimizeStringToBytes Sample.quiet
                                              (OptimizeMaps Sample.quiet
                                                 (Run Sample.quiet goPasses
                                                    (the_module s))))))))))
                         (insert_point (compiler s)))))).
Proof.
  apply (second_domain_run_skips_maps Sample.quiet (mkConfig "" false) 1 0 0
           Sample.program).
  - reflexivity.
  - vm_compute. reflexivity.
Defined.

(** ** Failures *)



(** ** GC instrumentation *)

(** C6: every run that passes the check after lowering runs both GC
    passes, the root bitmap first and the stack slots second, also when
    the first has already reported a change; [c.Verify] runs after them
    if and only if one of the two reported a change; and when that
    check fails [Optimize] returns the error "GC pass caused a
    verification failure", which is not the message of the check after
    lowering. *)
Theorem gc_passes_then_verify (K : Collaborators) (cfg : Config)
    (optLevel sizeLevel : Z) (inlinerThreshold : N) (m : Module) :
  In (EvVerify AfterLowering None)
     (final_trace
        (Optimize K cfg optLevel sizeLevel inlinerThreshold (start m))) ->
  ends_with_gc_stage
    (final_trace
       (Optimize K cfg optLevel sizeLevel inlinerThreshold (start m)))
  /\ (forall s,
        let g1 := addGlobalsBitmap K (the_module s) in
        let g2 := makeGCStackSlots K (fst g1) in
        final_module (GCInstrumentor K s) = fst g2
        /\ final_trace (GCInstrumentor K s)
           = trace s
             ++ [EvAddGlobalsBitmap (snd g1); EvMakeGCStackSlots (snd g2)]
             ++ (if snd g1 || snd g2
                 then [EvVerify AfterGC (Verify K (fst g2))] else [])
        /\ outcome (GCInstrumentor K s)
           = if snd g1 || snd g2
             then match Verify K (fst g2) with
                  | Some _ =>
                      Failed
                        (errors_New "GC pass caused a verification failure")
                  | None => Done tt
                  end
             else Done tt)
  /\ errors_New "GC pass caused a verification failure"
     <> errors_New verification_failure_message.
Proof.
  intros Hgate. split; [| split].
  - revert Hgate. start_run.
    step_run; end_run; unfold ends_with_gc_stage; cbn; intros Hgate;
      repeat match goal with
      | H : _ \/ _ |- _ => destruct H as [H | H]; try discriminate H
      | H : False |- _ => destruct H
      end;
      repeat match goal with
      | b : bool |- _ => destruct b
      end; cbn in *; congruence.
  - intros s. unfold GCInstrumentor, verify, when, bind, transform_with,
      inspect, final_module, final_trace, outcome, the_module, with_module,
      ret, fail, gc_failure_message.
    cbn [fst snd compiler cmod trace].
    destruct (addGlobalsBitmap K (cmod (compiler s))) as [m1 b1].
    cbn [fst snd compiler cmod trace].
    destruct (makeGCStackSlots K m1) as [m2 b2].
    cbn [fst snd compiler cmod trace].
    destruct b1, b2; cbn [orb fst snd compiler cmod trace];
      try destruct (Verify K m2);
      cbn [fst snd compiler cmod trace];
      rewrite <- ?app_assoc; repeat split; reflexivity.
  - discriminate.
Qed.

Lemma gc_passes_then_verify_witness :
  ends_with_gc_stage
    (final_trace
       (Optimize (Sample.collaborators None None true true false)
                 (mkConfig "" false) 1 0 0 (start Sample.program))).
Proof.
  apply (gc_passes_then_verify
           (Sample.collaborators None None true true false)
           (mkConfig "" false) 1 0 0 Sample.program).
  vm_compute. tauto.
Defined.

(** ** The inliner *)

(** C7: with [inlinerThreshold = 0] the builder has no inliner,
    whatever the optimisation level; with any other threshold it has
    the inliner with that threshold; and the builder so configured is
    the one that populates the function passes and the module passes of
    the run. *)
Theorem inliner_follows_threshold (K : Collaborators) (cfg : Config)
    (optLevel sizeLevel : Z) (inlinerThreshold : N) (m : Module) :
  Inliner (configure optLevel sizeLevel 0) = None
  /\ Inliner (configure optLevel sizeLevel inlinerThreshold)
     = (if (inlinerThreshold =? 0)%N then None else Some inlinerThreshold)
  /\ Forall (populated_by (configure optLevel sizeLevel inlinerThreshold))
       (final_trace
          (Optimize K cfg optLevel sizeLevel inlinerThreshold (start m))).
Proof.
  split; [reflexivity | split].
  - unfold configure. destruct (inlinerThreshold =? 0)%N; reflexivity.
  - start_run.
    step_run; end_run; cbn;
      repeat (constructor; cbn; auto).
Qed.

(** ** LinkageFinalizer *)

Section Linkage.

Lemma relinked_refl (names : list string) (f : Function) :
  relinked names f f.
Proof. unfold relinked. auto 6. Qed.

Lemma relinked_weaken (n1 n2 : list string) (f f' : Function) :
  incl n1 n2 -> relinked n1 f f' -> relinked n2 f f'.
Proof.
  intros Hincl (Hn & Hr & Ha & Hb & Hl). unfold relinked.
  repeat split; try assumption.
  destruct Hl as [Hl | [Hin Hl]]; [left | right]; auto.
Qed.

Lemma relinked_trans (names : list string) (f g h : Function) :
  relinked names f g -> relinked names g h -> relinked names f h.
Proof.
  intros (Hn & Hr & Ha & Hb & Hl) (Hn' & Hr' & Ha' & Hb' & Hl').
  unfold relinked. repeat split; try congruence.
  destruct Hl' as [Hl' | [Hin Hl']].
  - destruct Hl as [Hl | [Hin Hl]]; [left; congruence | right].
    split; [assumption | congruence].
  - right. split; [rewrite <- Hn; assumption | assumption].
Qed.

Lemma Forall2_relinked_refl (names : list string) (fs : list Function) :
  Forall2 (relinked names) fs fs.
Proof. induction fs; constructor; auto using relinked_refl. Qed.

Lemma Forall2_relinked_trans (names : list string)
    (fs gs hs : list Function) :
  Forall2 (relinked names) fs gs -> Forall2 (relinked names) gs hs ->
  Forall2 (relinked names) fs hs.
Proof.
  intros H. revert hs. induction H; intros hs H'; inversion H'; subst;
    constructor; eauto using relinked_trans.
Qed.

Lemma set_linkage_relinked (name : string) (fs : list Function) :
  Forall2 (relinked [name]) fs (set_linkage name InternalLinkage fs).
Proof.
  induction fs as [| f rest IH]; cbn; [constructor |].
  destruct (String.eqb_spec (fn_name f) name) as [Heq | Hne].
  - constructor; [| apply Forall2_relinked_refl].
    unfold relinked; cbn. repeat split. right. split; [left; auto | auto].
  - constructor; [apply relinked_refl | exact IH].
Qed.

Lemma reset_linkage_relinked (name : string) (m : Module) :
  relinked_module [name] m (reset_linkage m name).
Proof.
  unfold reset_linkage, NamedFunction, relinked_module.
  destruct (existsb _ (functions m)); cbn.
  - split; [reflexivity | apply set_linkage_relinked].
  - split; [reflexivity | apply Forall2_relinked_refl].
Qed.

Lemma LinkageFinalizer_relinked (names : list string) (m : Module) :
  relinked_module names m (LinkageFinalizer names m).
Proof.
  unfold LinkageFinalizer. revert m.
  induction names as [| name rest IH]; intros m; cbn.
  - split; [reflexivity | apply Forall2_relinked_refl].
  - destruct (IH (reset_linkage m name)) as [Hn Hf].
    destruct (reset_linkage_relinked name m) as [Hn' Hf'].
    split; [congruence |].
    apply Forall2_relinked_trans with (gs := functions (reset_linkage m name)).
    + revert Hf'. apply Forall2_impl. intros f f'.
      apply relinked_weaken. intros x [Hx | []]. left. exact Hx.
    + revert Hf. apply Forall2_impl. intros f f'.
      apply relinked_weaken. intros x Hx. right. exact Hx.
Qed.

Lemma find_set_linkage_same (name : string) (fs : list Function)
    (f : Function) :
  find (has_name name) (set_linkage name InternalLinkage fs) = Some f ->
  fn_linkage f = InternalLinkage.
Proof.
  unfold has_name.
  induction fs as [| f0 rest IH]; cbn; [discriminate |].
  destruct (String.eqb (fn_name f0) name) eqn:Heq; cbn; rewrite Heq.
  - intros H. injection H as <-. reflexivity.
  - exact IH.
Qed.

Lemma find_set_linkage_other (name name' : string) (fs : list Function)
    (f : Function) :
  find (has_name name') (set_linkage name InternalLinkage fs) = Some f ->
  fn_linkage f = InternalLinkage \/ find (has_name name') fs = Some f.
Proof.
  unfold has_name.
  induction fs as [| f0 rest IH]; cbn; [discriminate |].
  destruct (String.eqb (fn_name f0) name) eqn:Heq; cbn;
    destruct (String.eqb (fn_name f0) name') eqn:Heq'.
  - intros H. injection H as <-. left. reflexivity.
  - intros H. right. exact H.
  - intros H. right. exact H.
  - exact IH.
Qed.

Lemma reset_linkage_sets (name : string) (m : Module) :
  internal_if_present name (reset_linkage m name).
Proof.
  unfold reset_linkage, NamedFunction, internal_if_present.
  destruct (existsb _ (functions m)) eqn:Hex; cbn.
  - intros f. apply find_set_linkage_same.
  - intros f Hf. apply find_some in Hf as [Hin Hname].
    assert (existsb (fun f => String.eqb (fn_name f) name) (functions m)
            = true) as Habs
      by (apply existsb_exists; exists f; split; assumption).
    congruence.
Qed.

Lemma reset_linkage_keeps (name name' : string) (m : Module) :
  internal_if_present name' m ->
  internal_if_present name' (reset_linkage m name).
Proof.
  unfold reset_linkage, NamedFunction, internal_if_present.
  intros Hm. destruct (existsb _ (functions m)); cbn; [| exact Hm].
  intros f Hf. apply find_set_linkage_other in Hf as [Hf | Hf]; auto.
Qed.

Lemma LinkageFinalizer_sets (names : list string) (name : string)
    (m : Module) :
  In name names \/ internal_if_present name m ->
  internal_if_present name (LinkageFinalizer names m).
Proof.
  unfold LinkageFinalizer. revert m.
  induction names as [| n rest IH]; intros m H; cbn.
  - destruct H as [[] | H]. exact H.
  - apply IH. destruct H as [[-> | Hin] | Hm].
    + right. apply reset_linkage_sets.
    + left. exact Hin.
    + right. apply reset_linkage_keeps. exact Hm.
Qed.

Lemma LinkageFinalizer_absent (names : list string) (m : Module) :
  forallb (fun name => IsNil (NamedFunction m name)) names = true ->
  LinkageFinalizer names m = m.
Proof.
  unfold LinkageFinalizer.
  induction names as [| n rest IH]; cbn; [reflexivity |].
  intros H. apply andb_prop in H as [Hn Hrest].
  unfold reset_linkage at 2. rewrite Hn. apply IH. exact Hrest.
Qed.

End Linkage.

(** C8: LinkageFinalizer gives internal linkage to the function each
    name of the list denotes, when there is one, and is defined (no
    error) when there is none; it leaves the module as it was but for
    the linkage of functions named in the list; when no name of the
    list denotes a function it leaves the module unchanged; and
    [Optimize] runs it once the run has passed the check after
    lowering, after every lowering transform and every other sequenced
    phase. *)
Theorem linkage_reset_to_internal (K : Collaborators) (cfg : Config)
    (optLevel sizeLevel : Z) (inlinerThreshold : N)
    (names : list string) (name : string) (m : Module) :
  In name names ->
  internal_if_present name (LinkageFinalizer names m)
  /\ relinked_module names m (LinkageFinalizer names m)
  /\ (LinkageFinalizer names m = m
      \/ exists n, In n names /\ NamedFunction m n <> Nil)
  /\ existsb is_linkage
       (final_trace
          (Optimize K cfg optLevel sizeLevel inlinerThreshold (start m)))
     = existsb passed_lowering_check
         (final_trace
            (Optimize K cfg optLevel sizeLevel inlinerThreshold (start m)))
  /\ forallb (fun ev => negb (sequenced ev))
       (after_linkage
          (final_trace
             (Optimize K cfg optLevel sizeLevel inlinerThreshold (start m))))
     = true.
Proof.
  intros Hin. split; [| split; [| split; [| split]]].
  - apply LinkageFinalizer_sets. left. exact Hin.
  - apply LinkageFinalizer_relinked.
  - destruct (forallb (fun n => IsNil (NamedFunction m n)) names) eqn:Hall.
    + left. apply LinkageFinalizer_absent. exact Hall.
    + right.
      assert (existsb (fun n => negb (IsNil (NamedFunction m n))) names
              = true) as Hex.
      { clear Hin. induction names as [| n rest IH]; cbn in *;
          [discriminate |].
        destruct (IsNil (NamedFunction m n)); cbn in *; auto. }
      apply existsb_exists in Hex as (n & Hn & Hpresent).
      exists n. split; [exact Hn |].
      intros Hnil. rewrite Hnil in Hpresent. discriminate.
  - start_run. step_run; end_run; cbn; reflexivity.
  - start_run. step_run; end_run; cbn; reflexivity.
Qed.

Lemma linkage_reset_to_internal_witness :
  internal_if_present "runtime.alloc"
    (LinkageFinalizer ["runtime.alloc"; "runtime.free"] Sample.program).
Proof.
  apply (linkage_reset_to_internal Sample.quiet (mkConfig "" false) 1 0 0
           ["runtime.alloc"; "runtime.free"] "runtime.alloc" Sample.program).
  simpl. left. reflexivity.
Defined.

(** ** Editing the instruction lists *)

Section Expand.

Lemma concat_map_flat_map {A B : Type} (g : A -> list B)
    (bs : list (list A)) :
  List.concat (map (flat_map g) bs) = flat_map g (List.concat bs).
Proof.
  induction bs as [| b rest IH]; cbn; [reflexivity |].
  rewrite IH, flat_map_app. reflexivity.
Qed.

Lemma flat_map_flat_map {A B C : Type} (f : A -> list B) (g : B -> list C)
    (l : list A) :
  flat_map g (flat_map f l) = flat_map (fun a => flat_map g (f a)) l.
Proof.
  induction l as [| a rest IH]; cbn; [reflexivity |].
  rewrite flat_map_app, IH. reflexivity.
Qed.

Lemma insts_expand (g : Instruction -> list Instruction) (m : Module) :
  insts (expand g m) = flat_map g (insts m).
Proof.
  unfold insts, expand; cbn.
  induction (functions m) as [| f rest IH]; cbn; [reflexivity |].
  rewrite IH, flat_map_app. f_equal.
  unfold block_insts; cbn. apply concat_map_flat_map.
Qed.

Lemma functions_expand_expand (f g : Instruction -> list Instruction)
    (m : Module) :
  functions (expand g (expand f m))
  = functions (expand (fun i => flat_map g (f i)) m).
Proof.
  unfold expand; cbn. rewrite map_map. apply map_ext. intros fn.
  unfold expand_function; cbn. f_equal.
  rewrite map_map. apply map_ext. intros b. apply flat_map_flat_map.
Qed.

Lemma functions_expand_ext (f g : Instruction -> list Instruction)
    (m : Module) :
  (forall i, f i = g i) ->
  functions (expand f m) = functions (expand g m).
Proof.
  intros H. unfold expand; cbn. apply map_ext. intros fn.
  unfold expand_function. f_equal. apply map_ext. intros b.
  apply flat_map_ext. exact H.
Qed.

Lemma names_expand (g : Instruction -> list Instruction) (m : Module) :
  map fn_name (functions (expand g m)) = map fn_name (functions m).
Proof. unfold expand; cbn. rewrite map_map. reflexivity. Qed.

Lemma NamedFunction_names (m m' : Module) (name : string) :
  map fn_name (functions m') = map fn_name (functions m) ->
  NamedFunction m' name = NamedFunction m name.
Proof.
  unfold NamedFunction. intros H.
  assert (existsb (fun f => String.eqb (fn_name f) name) (functions m')
          = existsb (fun f => String.eqb (fn_name f) name) (functions m))
    as ->; [| reflexivity].
  revert H. generalize (functions m). generalize (functions m').
  induction l as [| f rest IH]; intros [| f0 rest0] H; cbn in *;
    try discriminate; [reflexivity |].
  injection H as Hname Hrest. rewrite Hname, (IH rest0 Hrest). reflexivity.
Qed.

End Expand.

Section Handles.

Lemma find_distinct (l : list Instruction) (i : Instruction) :
  distinct (map inst_id l) = true -> In i l ->
  find (fun j => inst_id j =? inst_id i) l = Some i.
Proof.
  induction l as [| j rest IH]; cbn; [intros _ [] |].
  intros Hd Hin. apply andb_prop in Hd as [Hj Hrest].
  destruct Hin as [-> | Hin].
  - rewrite Nat.eqb_refl. reflexivity.
  - destruct (Nat.eqb_spec (inst_id j) (inst_id i)) as [Heq | Hne].
    + exfalso. apply negb_true_iff in Hj.
      assert (existsb (Nat.eqb (inst_id j)) (map inst_id rest) = true)
        as Habs; [| congruence].
      apply existsb_exists. exists (inst_id i). split.
      * apply in_map. exact Hin.
      * apply Nat.eqb_eq. exact Heq.
    + apply IH; assumption.
Qed.

Lemma lookup_own (m : Module) (i : Instruction) :
  handles_ok m = true -> In i (insts m) -> lookup m (inst_id i) = Some i.
Proof.
  unfold handles_ok, lookup. intros H Hin.
  apply andb_prop in H as [Hd _]. apply find_distinct; assumption.
Qed.

Lemma handle_below (m : Module) (i : Instruction) :
  handles_ok m = true -> In i (insts m) -> inst_id i < next_id m.
Proof.
  unfold handles_ok. intros H Hin. apply andb_prop in H as [_ Hb].
  rewrite forallb_forall in Hb. apply Nat.ltb_lt. apply Hb. exact Hin.
Qed.

Lemma lookup_in (m : Module) (u : nat) (i : Instruction) :
  lookup m u = Some i -> In i (insts m) /\ inst_id i = u.
Proof.
  unfold lookup. intros H. apply find_some in H as [Hin Hid].
  split; [exact Hin | apply Nat.eqb_eq; exact Hid].
Qed.

End Handles.

(** ** The trap rewriter *)

Section Grown.

Variables (m0 : Module) (trap : Value).
Hypothesis m0_ok : handles_ok m0 = true.

Lemma Value_eqb_refl (v : Value) : Value_eqb v v = true.
Proof. unfold Value_eqb. destruct (Value_eq_dec v v); congruence. Qed.

Lemma Value_eqb_eq (v w : Value) : Value_eqb v w = true <-> v = w.
Proof.
  unfold Value_eqb. destruct (Value_eq_dec v w); split; congruence.
Qed.

Lemma flat_map_unchanged (g : Instruction -> list Instruction)
    (b : list Instruction) :
  (forall i, In i b -> g i = [i]) -> flat_map g b = b.
Proof.
  induction b as [| i rest IH]; cbn; intros H; [reflexivity |].
  rewrite (H i (or_introl eq_refl)), IH; [reflexivity |].
  intros j Hj. apply H. right. exact Hj.
Qed.

Lemma in_insts (m : Module) (f : Function) (b : list Instruction)
    (i : Instruction) :
  In f (functions m) -> In b (fn_blocks f) -> In i b -> In i (insts m).
Proof.
  intros Hf Hb Hi. unfold insts. apply in_flat_map. exists f.
  split; [exact Hf |]. unfold block_insts. apply in_concat.
  exists b. split; assumption.
Qed.

Lemma functions_expand_unchanged (g : Instruction -> list Instruction)
    (m : Module) :
  (forall i, In i (insts m) -> g i = [i]) ->
  functions (expand g m) = functions m.
Proof.
  intros H. unfold expand; cbn.
  rewrite <- (map_id (functions m)) at 2.
  apply map_ext_in. intros f Hf.
  destruct f as [name r l a blocks]; unfold expand_function; cbn. f_equal.
  rewrite <- (map_id blocks) at 2.
  apply map_ext_in. intros b Hb. apply flat_map_unchanged.
  intros i Hi. apply H. eapply in_insts; eauto.
Qed.

Lemma grown_refl : grown m0 trap m0.
Proof.
  unfold grown, originals. split; [| split].
  - apply functions_expand_unchanged. intros i Hi. unfold keep_old.
    pose proof (handle_below m0 i m0_ok Hi) as Hlt.
    apply Nat.ltb_lt in Hlt. rewrite Hlt. reflexivity.
  - apply Nat.le_refl.
  - intros i Hi Hge. pose proof (handle_below m0 i m0_ok Hi). lia.
Qed.










Lemma cmod_add_trap (c : Compiler) (u : nat) :
  cmod (add_trap trap c (InstRef u))
  = mkModule
      (functions
         (expand
            (insert_before u
               (mkInst (next_id (cmod c)) Call [trap]
                       (ReturnType (cmod c) trap)))
            (cmod c)))
      (S (next_id (cmod c))).
Proof. reflexivity. Qed.

Lemma grown_add_trap (c : Compiler) (u : nat) :
  grown m0 trap (cmod c) ->
  grown m0 trap (cmod (add_trap trap c (InstRef u))).
Proof.
  intros (Horig & Hnext & Hnew). rewrite cmod_add_trap.
  set (new := mkInst (next_id (cmod c)) Call [trap]
                     (ReturnType (cmod c) trap)).
  unfold grown, originals. split; [| split].
  - rewrite <- Horig. unfold originals.
    change (functions
              (expand (keep_old (next_id m0))
                 (mkModule (functions (expand (insert_before u new) (cmod c)))
                           (S (next_id (cmod c))))))
      with (functions
              (expand (keep_old (next_id m0))
                 (expand (insert_before u new) (cmod c)))).
    rewrite functions_expand_expand. apply functions_expand_ext.
    intros i. unfold insert_before.
    destruct (inst_id i =? u); cbn [flat_map]; rewrite app_nil_r;
      [| reflexivity].
    assert (keep_old (next_id m0) new = []) as ->; [| reflexivity].
    unfold keep_old.
    destruct (Nat.ltb_spec (inst_id new) (next_id m0)) as [Hlt | Hge];
      [| reflexivity].
    unfold new in Hlt. cbn [inst_id] in Hlt. lia.
  - cbn. lia.
  - intros i Hi Hge.
    change (insts (mkModule
                     (functions (expand (insert_before u new) (cmod c)))
                     (S (next_id (cmod c)))))
      with (insts (expand (insert_before u new) (cmod c))) in Hi.
    rewrite insts_expand in Hi. apply in_flat_map in Hi as (j & Hj & Hi).
    unfold insert_before in Hi.
    destruct (inst_id j =? u); cbn in Hi.
    + destruct Hi as [<- | [<- | []]].
      * cbn. apply Value_eqb_refl.
      * apply Hnew; assumption.
    + destruct Hi as [<- | []]. apply Hnew; assumption.
Qed.

End Grown.

Section Guarded.

Variables (P P' T : Instruction -> bool).





End Guarded.

Section TrapUses.

Variables (m0 : Module) (trap fn : Value).
Hypothesis m0_ok : handles_ok m0 = true.

Lemma trap_uses_cons (use : Value) (rest : list Value) (c : Compiler) :
  trap_uses fn trap (use :: rest) c
  = if use_ok (cmod c) fn use
    then trap_uses fn trap rest (add_trap trap c use)
    else (Panicked not_a_call_message, c).
Proof.
  unfold use_ok. cbn [trap_uses].
  destruct (IsNil (IsACallInst (cmod c) use)
            || negb (Value_eqb (CalledValue (cmod c) use) fn));
    reflexivity.
Qed.





End TrapUses.

Section TrapNames.

Variables (m0 : Module) (trap : Value).
Hypothesis m0_ok : handles_ok m0 = true.


Lemma NamedFunction_cases (m : Module) (name : string) :
  NamedFunction m name = Nil \/ NamedFunction m name = FuncRef name.
Proof. unfold NamedFunction. destruct (existsb _ _); auto. Qed.

Lemma trap_names_cons (name : string) (rest : list string) (c : Compiler) :
  trap_names trap (name :: rest) c
  = if IsNil (NamedFunction (cmod c) name)
    then trap_names trap rest c
    else bind (trap_uses (NamedFunction (cmod c) name) trap
                 (getUses (cmod c) (NamedFunction (cmod c) name)))
              (fun _ => trap_names trap rest) c.
Proof. reflexivity. Qed.






End TrapNames.






Example program_uses_are_direct : all_uses_direct Sample.program = true.
Proof. vm_compute. reflexivity. Qed.

Example address_taken_is_not_direct :
  all_uses_direct Sample.address_taken = false
  /\ outcome
       (Optimize Sample.quiet (mkConfig "trap" false) 1 0 0
                 (start Sample.address_taken))
     = Panicked not_a_call_message.
Proof. vm_compute. split; reflexivity. Qed.

(** ** A missing panic function *)

Lemma trap_uses_names (fn trap : Value) (uses : list Value) (c : Compiler) :
  map fn_name (functions (cmod (snd (trap_uses fn trap uses c))))
  = map fn_name (functions (cmod c)).
Proof.
  revert c. induction uses as [| use rest IH]; intros c; [reflexivity |].
  rewrite trap_uses_cons. destruct (use_ok (cmod c) fn use); [| reflexivity].
  rewrite IH. unfold add_trap, CreateCall, build, SetInsertPointBefore.
  cbn [fst cmod insert_point functions].
  destruct use; try reflexivity. apply names_expand.
Qed.

(** C10: a panic function the module does not have is skipped: the
    rewriter does what it does for the other names alone.  When the
    module has none of them, the rewriter ends normally and leaves the
    compiler state as it was. *)
Theorem absent_panic_function_skipped (c : Compiler) (name : string) :
  In name panic_names ->
  NamedFunction (cmod c) name = Nil ->
  replacePanicsWithTrap c
  = trap_names (NamedFunction (cmod c) "llvm.trap")
               (filter (fun n => negb (String.eqb n name)) panic_names) c
  /\ (replacePanicsWithTrap c = (Done tt, c)
      \/ exists n, In n panic_names /\ NamedFunction (cmod c) n <> Nil).
Proof.
  intros Hin Hnil. unfold replacePanicsWithTrap.
  set (trap := NamedFunction (cmod c) "llvm.trap").
  destruct Hin as [<- | [<- | []]].
  - split.
    + change (filter _ panic_names) with ["runtime.runtimePanic"].
      unfold panic_names. rewrite trap_names_cons, Hnil. reflexivity.
    + unfold panic_names. rewrite trap_names_cons, Hnil. cbn [IsNil].
      rewrite trap_names_cons.
      destruct (NamedFunction_cases (cmod c) "runtime.runtimePanic")
        as [Hn | Hn].
      * left. rewrite Hn. reflexivity.
      * right. exists "runtime.runtimePanic". split; [right; left; auto |].
        rewrite Hn. discriminate.
  - assert (Hskip : forall c', map fn_name (functions (cmod c'))
                               = map fn_name (functions (cmod c)) ->
                               trap_names trap ["runtime.runtimePanic"] c'
                               = (Done tt, c')).
    { intros c' Hnames. rewrite trap_names_cons.
      rewrite (NamedFunction_names (cmod c) (cmod c') _ Hnames), Hnil.
      reflexivity. }
    split.
    + change (filter _ panic_names) with ["runtime._panic"].
      unfold panic_names. rewrite !trap_names_cons.
      destruct (IsNil (NamedFunction (cmod c) "runtime._panic")).
      * apply Hskip. reflexivity.
      * unfold bind.
        pose proof (trap_uses_names (NamedFunction (cmod c) "runtime._panic")
                      trap
                      (getUses (cmod c)
                         (NamedFunction (cmod c) "runtime._panic")) c)
          as Hnames.
        destruct (trap_uses _ trap _ c) as [[[] | e | msg] c1];
          cbn [snd] in Hnames; [| reflexivity | reflexivity].
        rewrite (Hskip c1 Hnames). reflexivity.
    + unfold panic_names. rewrite trap_names_cons.
      destruct (NamedFunction_cases (cmod c) "runtime._panic") as [Hn | Hn].
      * left. rewrite Hn. cbn [IsNil]. apply Hskip. reflexivity.
      * right. exists "runtime._panic". split; [left; auto |].
        rewrite Hn. discriminate.
Qed.

Lemma absent_panic_function_skipped_witness :
  replacePanicsWithTrap (mkCompiler Sample.bare Nil)
  = trap_names (NamedFunction Sample.bare "llvm.trap")
               (filter (fun n => negb (String.eqb n "runtime._panic"))
                       panic_names)
               (mkCompiler Sample.bare Nil)
  /\ (replacePanicsWithTrap (mkCompiler Sample.bare Nil)
      = (Done tt, mkCompiler Sample.bare Nil)
      \/ exists n, In n panic_names /\ NamedFunction Sample.bare n <> Nil).
Proof.
  apply (absent_panic_function_skipped (mkCompiler Sample.bare Nil)
           "runtime._panic").
  - simpl. left. reflexivity.
  - reflexivity.
Defined.

(** ** NilCheckLowering *)

Section LowerOne.

Lemma distinct_NoDup (l : list nat) : distinct l = true <-> NoDup l.
Proof.
  induction l as [| x rest IH]; cbn.
  - split; [constructor | reflexivity].
  - rewrite andb_true_iff, negb_true_iff, IH. split.
    + intros [Hx Hrest]. constructor; [| exact Hrest].
      intros Hin.
      assert (existsb (Nat.eqb x) rest = true) as Habs; [| congruence].
      apply existsb_exists. exists x. split; [exact Hin | apply Nat.eqb_refl].
    + intros H. inversion H as [| y l' Hx Hrest]; subst. split; [| exact Hrest].
      destruct (existsb (Nat.eqb x) rest) eqn:Hex; [| reflexivity].
      apply existsb_exists in Hex as (y & Hy & Heq).
      apply Nat.eqb_eq in Heq. subst y. contradiction.
Qed.

Lemma flat_map_ext_in (f g : Instruction -> list Instruction)
    (b : list Instruction) :
  (forall i, In i b -> f i = g i) -> flat_map f b = flat_map g b.
Proof.
  induction b as [| i rest IH]; cbn; intros H; [reflexivity |].
  rewrite (H i (or_introl eq_refl)), IH; [reflexivity |].
  intros j Hj. apply H. right. exact Hj.
Qed.

Lemma functions_expand_ext_in (f g : Instruction -> list Instruction)
    (m : Module) :
  (forall i, In i (insts m) -> f i = g i) ->
  functions (expand f m) = functions (expand g m).
Proof.
  intros H. unfold expand; cbn. apply map_ext_in. intros fn Hfn.
  unfold expand_function. f_equal. apply map_ext_in. intros b Hb.
  apply flat_map_ext_in. intros i Hi. apply H. eapply in_insts; eauto.
Qed.

End LowerOne.

Section LowerStep.

Lemma subst_value_redirect (u N : nat) (v : Value) :
  subst_value (InstRef u) (InstRef N) v = redirect [(u, N)] v.
Proof.
  unfold subst_value, Value_eqb.
  destruct (Value_eq_dec v (InstRef u)) as [-> | Hne].
  - cbn. rewrite Nat.eqb_refl. reflexivity.
  - destruct v as [| name | x | t | k t]; try reflexivity.
    cbn. destruct (Nat.eqb_spec u x); [subst; contradiction | reflexivity].
Qed.

Lemma subst_inst_redirect (u N : nat) (i : Instruction) :
  subst_inst (InstRef u) (InstRef N) i = redirect_inst [(u, N)] i.
Proof.
  unfold subst_inst, redirect_inst. f_equal. apply map_ext.
  apply subst_value_redirect.
Qed.

Lemma nth_redirect (sm : list (nat * nat)) (l : list Value) (n : nat) :
  nth n (map (redirect sm) l) Nil = redirect sm (nth n l Nil).
Proof. exact (map_nth (redirect sm) l Nil n). Qed.

Lemma redirect_quiet (sm : list (nat * nat)) (v : Value) :
  (forall x, v = InstRef x -> assoc x sm = None) -> redirect sm v = v.
Proof.
  intros H. destruct v as [| name | x | t | k t]; cbn; try reflexivity.
  rewrite (H x eq_refl). reflexivity.
Qed.

(** One round of the loop replaces the call by its comparison and
    redirects the uses of its result. *)
Lemma lower_isnil_use_lowered (c : Compiler) (u : nat) (i : Instruction) :
  handles_ok (cmod c) = true ->
  lookup (cmod c) u = Some i ->
  strip_cast (cmod c) (nth 0 (operands i) Nil) <> InstRef u ->
  cmod (lower_isnil_use c (InstRef u)) = lowered_with (cmod c) [u].
Proof.
  intros Hok Hlook Hquiet.
  set (m := cmod c) in *. set (N := next_id m).
  unfold lower_isnil_use, CreateICmp, build, ReplaceAllUsesWith,
    EraseFromParentAsInstruction, SetInsertPointBefore.
  cbn [cmod insert_point fst snd]. fold m. fold N.
  set (ptr := if negb (IsNil (IsABitCastInst m (Operand m (InstRef u) 0)))
              then Operand m (Operand m (InstRef u) 0) 0
              else Operand m (InstRef u) 0).
  set (new := mkInst N (ICmp IntEQ) [ptr; ConstPointerNull (TypeOf m ptr)]
                     (TInt 1)).
  assert (Hptr : ptr = strip_cast m (nth 0 (operands i) Nil)).
  { unfold ptr, strip_cast, Operand at 1 3 4. rewrite Hlook. reflexivity. }
  assert (Hnew : new = comparison m N i).
  { unfold new, comparison. cbv zeta. rewrite <- Hptr. reflexivity. }
  assert (Hsubst : subst_inst (InstRef u) (InstRef N) new = new).
  { rewrite subst_inst_redirect. unfold redirect_inst, new. cbn. f_equal.
    rewrite redirect_quiet; [reflexivity |].
    intros x Hx. cbn. destruct (Nat.eqb_spec u x); [| reflexivity].
    subst x. rewrite Hptr in Hx. contradiction. }
  unfold lowered_with. fold m. fold N. cbn [List.length Nat.add].
  unfold expand at 1 2. cbn [next_id functions]. f_equal.
  change (map (expand_function (erase u))
            (map (expand_function
                    (fun j => [subst_inst (InstRef u) (InstRef N) j]))
                 (functions (expand (insert_before u new) m))))
    with (functions
            (expand (erase u)
               (expand (fun j => [subst_inst (InstRef u) (InstRef N) j])
                  (expand (insert_before u new) m)))).
  rewrite !functions_expand_expand.
  apply functions_expand_ext_in. intros j Hj.
  unfold lower_inst, site_map. cbn [List.length seq combine assoc].
  unfold insert_before.
  destruct (Nat.eqb_spec (inst_id j) u) as [Heq | Hne].
  - assert (j = i) as ->.
    { pose proof (lookup_own m j Hok Hj) as Hown. rewrite Heq in Hown.
      congruence. }
    assert (Hlt : u < N).
    { rewrite <- Heq. apply handle_below; assumption. }
    destruct (Nat.eqb_spec u (inst_id i)); [| congruence].
    cbn [flat_map app]. rewrite Hsubst. unfold erase. cbn [inst_id new].
    destruct (Nat.eqb_spec N u); [lia |].
    change (inst_id (subst_inst (InstRef u) (InstRef N) i)) with (inst_id i).
    rewrite Heq, Nat.eqb_refl. cbn. rewrite Hnew. reflexivity.
  - destruct (Nat.eqb_spec u (inst_id j)); [congruence |].
    cbn [flat_map app]. unfold erase. cbn [inst_id subst_inst].
    destruct (Nat.eqb_spec (inst_id j) u); [contradiction |].
    cbn. rewrite subst_inst_redirect. reflexivity.
Qed.

End LowerStep.

Section LoweredOne.

Variables (m : Module) (u : nat).
Hypothesis m_ok : handles_ok m = true.
Hypothesis m_refs : refs_ok m = true.

Let N := next_id m.
Let m1 := lowered_with m [u].

Lemma insts_lowered_one :
  insts m1 = flat_map (lower_inst m [(u, N)]) (insts m).
Proof.
  unfold m1, lowered_with.
  change (insts (mkModule
                   (functions
                      (expand (lower_inst m (site_map (next_id m) [u])) m))
                   (List.length [u] + next_id m)))
    with (insts (expand (lower_inst m (site_map (next_id m) [u])) m)).
  rewrite insts_expand. reflexivity.
Qed.

Lemma next_lowered_one : next_id m1 = S N.
Proof. reflexivity. Qed.

Lemma lookup_lowered_one (x : nat) :
  x <> u -> x <> N ->
  lookup m1 x = option_map (redirect_inst [(u, N)]) (lookup m x).
Proof.
  intros Hu HN. unfold lookup. rewrite insts_lowered_one.
  induction (insts m) as [| i rest IH]; cbn [flat_map find option_map];
    [reflexivity |].
  unfold lower_inst at 1. cbn [assoc].
  destruct (Nat.eqb_spec u (inst_id i)) as [Heq | Hne]; cbn [app find].
  - cbn [comparison inst_id].
    destruct (Nat.eqb_spec N x); [congruence |].
    destruct (Nat.eqb_spec (inst_id i) x); [congruence |]. exact IH.
  - cbn [redirect_inst inst_id].
    destruct (Nat.eqb_spec (inst_id i) x); [reflexivity | exact IH].
Qed.

Lemma value_below_S (n : nat) (v : Value) :
  value_below n v = true -> value_below (S n) v = true.
Proof.
  destruct v; unfold value_below; try reflexivity.
  intros H. apply Nat.ltb_lt in H. apply Nat.ltb_lt. lia.
Qed.

Lemma operand_below (i : Instruction) (n : nat) :
  In i (insts m) -> value_below N (nth n (operands i) Nil) = true.
Proof.
  intros Hi. unfold refs_ok in m_refs. rewrite forallb_forall in m_refs.
  specialize (m_refs i Hi). rewrite forallb_forall in m_refs.
  destruct (nth_in_or_default n (operands i) Nil) as [Hin | ->];
    [apply m_refs; exact Hin | reflexivity].
Qed.

Lemma Operand_below (v : Value) (n : nat) :
  value_below N (Operand m v n) = true.
Proof.
  unfold Operand. destruct v; try reflexivity.
  destruct (lookup m id) as [i |] eqn:Hl; [| reflexivity].
  apply operand_below. apply lookup_in in Hl as [Hin _]. exact Hin.
Qed.

Lemma strip_cast_below (p : Value) :
  value_below N p = true -> value_below N (strip_cast m p) = true.
Proof.
  intros Hp. unfold strip_cast.
  destruct (negb (IsNil (IsABitCastInst m p)));
    [apply Operand_below | exact Hp].
Qed.

Lemma redirect_one_other (v : Value) :
  v <> InstRef u -> redirect [(u, N)] v = v.
Proof.
  intros Hv. apply redirect_quiet. intros x ->. cbn.
  destruct (Nat.eqb_spec u x); [subst; contradiction | reflexivity].
Qed.

Lemma below_not_next (v : Value) :
  value_below N v = true -> v <> InstRef N.
Proof.
  intros Hv ->. cbn in Hv. apply Nat.ltb_lt in Hv. lia.
Qed.

(** A value that is not the result of the lowered call keeps its cast
    source and its type. *)
Lemma strip_cast_lowered_one (p : Value) :
  p <> InstRef u -> value_below N p = true ->
  strip_cast m p <> InstRef u ->
  strip_cast m1 p = strip_cast m p.
Proof.
  intros Hp Hbelow Hstrip. unfold strip_cast in *.
  destruct p as [| name | x | t | k t]; try reflexivity.
  unfold IsABitCastInst, Operand in *.
  rewrite lookup_lowered_one;
    [| congruence | intros ->; cbn in Hbelow; apply Nat.ltb_lt in Hbelow; lia].
  destruct (lookup m x) as [[id op ops ty] |]; cbn [option_map];
    [| reflexivity].
  cbn [redirect_inst opcode inst_id operands inst_ty].
  destruct op; cbn [IsNil negb] in *; try reflexivity.
  rewrite nth_redirect.
  apply redirect_one_other. exact Hstrip.
Qed.

Lemma TypeOf_lowered_one (p : Value) :
  p <> InstRef u -> value_below N p = true ->
  TypeOf m1 p = TypeOf m p.
Proof.
  intros Hp Hbelow. destruct p as [| name | x | t | k t]; try reflexivity.
  unfold TypeOf.
  rewrite lookup_lowered_one;
    [| congruence | intros ->; cbn in Hbelow; apply Nat.ltb_lt in Hbelow; lia].
  destruct (lookup m x); reflexivity.
Qed.

Lemma handles_lowered_one : handles_ok m1 = true.
Proof.
  unfold handles_ok. rewrite insts_lowered_one, next_lowered_one.
  pose proof m_ok as Hok. unfold handles_ok in Hok.
  apply andb_prop in Hok as [Hd Hb]. rewrite forallb_forall in Hb.
  assert (Hids : map inst_id (flat_map (lower_inst m [(u, N)]) (insts m))
                 = map (fun x => if u =? x then N else x)
                       (map inst_id (insts m))).
  { clear Hd Hb. induction (insts m) as [| i rest IH]; cbn [flat_map map];
      [reflexivity |].
    rewrite map_app, IH. unfold lower_inst at 1. cbn [assoc].
    destruct (u =? inst_id i); reflexivity. }
  apply andb_true_intro. split.
  - rewrite Hids. apply distinct_NoDup.
    apply NoDup_map_NoDup_ForallPairs; [| apply distinct_NoDup; exact Hd].
    intros a b Ha Hb' Hab.
    apply in_map_iff in Ha as (i & <- & Hi).
    apply in_map_iff in Hb' as (j & <- & Hj).
    pose proof (Hb i Hi) as Hlti. pose proof (Hb j Hj) as Hltj.
    apply Nat.ltb_lt in Hlti, Hltj. fold N in Hlti, Hltj.
    destruct (Nat.eqb_spec u (inst_id i)), (Nat.eqb_spec u (inst_id j));
      lia.
  - apply forallb_forall. intros j Hj.
    apply in_flat_map in Hj as (i & Hi & Hj).
    pose proof (Hb i Hi) as Hlt. apply Nat.ltb_lt in Hlt. fold N in Hlt.
    unfold lower_inst in Hj. cbn [assoc] in Hj.
    destruct (u =? inst_id i); destruct Hj as [<- | []];
      cbn [comparison redirect_inst inst_id]; apply Nat.ltb_lt; lia.
Qed.

Lemma refs_lowered_one : refs_ok m1 = true.
Proof.
  unfold refs_ok. rewrite insts_lowered_one, next_lowered_one.
  apply forallb_forall. intros j Hj.
  apply in_flat_map in Hj as (i & Hi & Hj).
  unfold lower_inst in Hj. cbn [assoc] in Hj.
  destruct (u =? inst_id i); destruct Hj as [<- | []].
  - cbn [comparison operands forallb].
    rewrite value_below_S; [reflexivity |].
    apply strip_cast_below. apply operand_below. exact Hi.
  - cbn [redirect_inst operands]. apply forallb_forall. intros v Hv.
    apply in_map_iff in Hv as (w & <- & Hw).
    assert (Hbelow : value_below N w = true).
    { unfold refs_ok in m_refs. rewrite forallb_forall in m_refs.
      specialize (m_refs i Hi). rewrite forallb_forall in m_refs.
      apply m_refs. exact Hw. }
    destruct w as [| name | x | t | k t]; try reflexivity.
    cbn [redirect assoc]. destruct (u =? x).
    + unfold value_below. apply Nat.ltb_lt. lia.
    + apply value_below_S in Hbelow. exact Hbelow.
Qed.

End LoweredOne.

Section LoweredAll.

Lemma site_map_cons (N u : nat) (rest : list nat) :
  site_map N (u :: rest) = (u, N) :: site_map (S N) rest.
Proof. reflexivity. Qed.

Lemma assoc_site_map_none (us : list nat) (N x : nat) :
  ~ In x us -> assoc x (site_map N us) = None.
Proof.
  revert N. induction us as [| u rest IH]; intros N Hx; [reflexivity |].
  rewrite site_map_cons. cbn [assoc].
  destruct (Nat.eqb_spec u x) as [-> | Hne].
  - exfalso. apply Hx. left. reflexivity.
  - apply IH. intros Hin. apply Hx. right. exact Hin.
Qed.

Lemma assoc_site_map_in (us : list nat) (N x y : nat) :
  assoc x (site_map N us) = Some y -> In x us.
Proof.
  intros H. destruct (in_dec Nat.eq_dec x us) as [Hin | Hout];
    [exact Hin |].
  rewrite (assoc_site_map_none us N x Hout) in H. discriminate.
Qed.

Lemma assoc_site_map_some (us : list nat) (N x : nat) :
  In x us -> exists y, assoc x (site_map N us) = Some y.
Proof.
  revert N. induction us as [| u rest IH]; intros N Hx; [destruct Hx |].
  rewrite site_map_cons. cbn [assoc].
  destruct (Nat.eqb_spec u x) as [-> | Hne]; [exists N; reflexivity |].
  apply IH. destruct Hx as [Hx | Hx]; [contradiction | exact Hx].
Qed.

Lemma assoc_site_map_range (us : list nat) (N x y : nat) :
  assoc x (site_map N us) = Some y -> N <= y.
Proof.
  revert N. induction us as [| u rest IH]; intros N; [discriminate |].
  rewrite site_map_cons. cbn [assoc].
  destruct (u =? x).
  - intros H. injection H as <-. apply Nat.le_refl.
  - intros H. apply IH in H. lia.
Qed.

Lemma quiet_redirect (us : list nat) (N : nat) (v : Value) :
  quiet us v -> redirect (site_map N us) v = v.
Proof.
  intros Hq. apply redirect_quiet. intros x Hx.
  apply assoc_site_map_none. apply Hq. exact Hx.
Qed.

Lemma quiet_tail (u : nat) (rest : list nat) (v : Value) :
  quiet (u :: rest) v -> quiet rest v /\ v <> InstRef u.
Proof.
  unfold quiet. intros H. split.
  - intros x Hx Hin. apply (H x Hx). right. exact Hin.
  - intros Hv. apply (H u Hv). left. reflexivity.
Qed.

Lemma lowerable_site (m : Module) (us : list nat) (i : Instruction) :
  lowerable m us -> In i (insts m) -> In (inst_id i) us ->
  quiet us (nth 0 (operands i) Nil)
  /\ quiet us (strip_cast m (nth 0 (operands i) Nil)).
Proof.
  intros (Hok & _ & _ & Hsites) Hi Hin.
  destruct (Hsites _ Hin) as (j & Hlook & Hq).
  rewrite (lookup_own m i Hok Hi) in Hlook. injection Hlook as <-. exact Hq.
Qed.

Lemma lowerable_below (m : Module) (us : list nat) (u : nat) :
  lowerable m us -> In u us -> u < next_id m.
Proof.
  intros (Hok & _ & _ & Hsites) Hin.
  destruct (Hsites _ Hin) as (j & Hlook & _).
  apply lookup_in in Hlook as [Hj <-]. apply handle_below; assumption.
Qed.

Lemma lowerable_step (m : Module) (u : nat) (rest : list nat) :
  lowerable m (u :: rest) -> lowerable (lowered_with m [u]) rest.
Proof.
  intros H. pose proof H as (Hok & Hrefs & Hnd & Hsites).
  inversion Hnd as [| u0 r0 Hnotin Hnd']; subst.
  split; [apply handles_lowered_one; assumption |].
  split; [apply refs_lowered_one; assumption |].
  split; [exact Hnd' |].
  intros u' Hu'.
  destruct (Hsites u' (or_intror Hu')) as (i & Hlook & Hq0 & Hq).
  apply quiet_tail in Hq0 as [Hq0 Hne0]. apply quiet_tail in Hq as [Hq Hne].
  pose proof (lookup_in m u' i Hlook) as [Hi Hid].
  assert (Hbelow : value_below (next_id m) (nth 0 (operands i) Nil) = true)
    by (apply operand_below; assumption).
  exists (redirect_inst [(u, next_id m)] i).
  split; [| split].
  - rewrite lookup_lowered_one, Hlook; [reflexivity | |].
    + intros ->. contradiction.
    + pose proof (lowerable_below m (u :: rest) u' H (or_intror Hu')). lia.
  - cbn [redirect_inst operands].
    rewrite nth_redirect.
    rewrite redirect_one_other by exact Hne0. exact Hq0.
  - cbn [redirect_inst operands].
    rewrite nth_redirect.
    rewrite redirect_one_other by exact Hne0.
    rewrite strip_cast_lowered_one; assumption.
Qed.

Lemma redirect_cons (u N : nat) (rest : list nat) (v : Value) :
  (forall x, In x rest -> x < N) ->
  redirect (site_map (S N) rest) (redirect [(u, N)] v)
  = redirect (site_map N (u :: rest)) v.
Proof.
  intros Hrest. rewrite site_map_cons.
  destruct v as [| name | x | t | k t]; try reflexivity.
  cbn [redirect assoc]. destruct (Nat.eqb_spec u x) as [-> | Hne].
  - cbn [redirect]. rewrite assoc_site_map_none; [reflexivity |].
    intros Hin. specialize (Hrest N Hin). lia.
  - reflexivity.
Qed.

Lemma lowered_with_cons (m : Module) (u : nat) (rest : list nat) :
  lowerable m (u :: rest) ->
  lowered_with (lowered_with m [u]) rest = lowered_with m (u :: rest).
Proof.
  intros H. pose proof H as (Hok & Hrefs & Hnd & Hsites).
  inversion Hnd as [| u0 r0 Hnotin Hnd']; subst.
  set (N := next_id m).
  assert (Hrest : forall x, In x rest -> x < N)
    by (intros x Hx; apply (lowerable_below m (u :: rest)); auto; right; auto).
  unfold lowered_with at 1.
  change (next_id (lowered_with m [u])) with (S N).
  unfold lowered_with at 3. fold N.
  replace (List.length rest + S N) with (List.length (u :: rest) + N)
    by (cbn [List.length]; lia).
  f_equal.
  change (functions
            (expand (lower_inst (lowered_with m [u]) (site_map (S N) rest))
                    (lowered_with m [u])))
    with (functions
            (expand (lower_inst (lowered_with m [u]) (site_map (S N) rest))
                    (expand (lower_inst m (site_map N [u])) m))).
  rewrite functions_expand_expand. apply functions_expand_ext_in.
  intros i Hi.
  change (site_map N [u]) with [(u, N)].
  rewrite site_map_cons.
  set (sm := site_map (S N) rest).
  assert (E1 : lower_inst m [(u, N)] i
               = if u =? inst_id i then [comparison m N i]
                 else [redirect_inst [(u, N)] i])
    by (unfold lower_inst; cbn [assoc]; destruct (u =? inst_id i);
        reflexivity).
  assert (E2 : lower_inst m ((u, N) :: sm) i
               = if u =? inst_id i then [comparison m N i]
                 else match assoc (inst_id i) sm with
                      | Some y => [comparison m y i]
                      | None => [redirect_inst ((u, N) :: sm) i]
                      end)
    by (unfold lower_inst; cbn [assoc]; destruct (u =? inst_id i);
        reflexivity).
  rewrite E1, E2. clear E1 E2. subst sm. subst N.
  destruct (Nat.eqb_spec u (inst_id i)) as [Heq | Hne]; cbn [flat_map];
    rewrite app_nil_r.
  - unfold lower_inst. unfold comparison at 1. cbn [inst_id].
    rewrite assoc_site_map_none
      by (intros Hin; specialize (Hrest _ Hin); lia).
    f_equal. unfold redirect_inst, comparison.
    cbn [inst_id opcode operands inst_ty map].
    destruct (lowerable_site m (u :: rest) i H Hi) as [_ Hq];
      [left; exact Heq |].
    apply quiet_tail in Hq as [Hq _].
    rewrite (quiet_redirect rest (S (next_id m)) _ Hq). reflexivity.
  - unfold lower_inst. cbn [redirect_inst inst_id].
    destruct (assoc (inst_id i) (site_map (S (next_id m)) rest))
      as [y |] eqn:Hassoc.
    + f_equal. apply assoc_site_map_in in Hassoc.
      destruct (lowerable_site m (u :: rest) i H Hi) as [Hq0 Hq];
        [right; exact Hassoc |].
      apply quiet_tail in Hq0 as [_ Hne0]. apply quiet_tail in Hq as [_ Hnes].
      assert (Hbelow : value_below (next_id m) (nth 0 (operands i) Nil)
                       = true)
        by (apply operand_below; assumption).
      unfold comparison. cbv zeta. cbn [redirect_inst operands].
      rewrite nth_redirect.
      rewrite redirect_one_other by exact Hne0.
      rewrite strip_cast_lowered_one by assumption.
      rewrite TypeOf_lowered_one;
        [reflexivity | exact Hnes | apply strip_cast_below; assumption].
    + f_equal. unfold redirect_inst.
      cbn [inst_id opcode operands inst_ty]. f_equal.
      rewrite map_map. apply map_ext. intros v.
      rewrite <- site_map_cons. apply redirect_cons. exact Hrest.
Qed.

Lemma redirect_inst_nil (i : Instruction) : redirect_inst [] i = i.
Proof.
  destruct i as [id op ops ty]. unfold redirect_inst; cbn. f_equal.
  rewrite <- (map_id ops) at 2. apply map_ext. intros v.
  destruct v; reflexivity.
Qed.

Lemma lowered_with_nil (m : Module) : lowered_with m [] = m.
Proof.
  unfold lowered_with. cbn [List.length Nat.add].
  rewrite functions_expand_unchanged; [destruct m; reflexivity |].
  intros i _. unfold lower_inst, site_map. cbn [List.length seq combine assoc].
  rewrite redirect_inst_nil. reflexivity.
Qed.

(** The loop of lines 70 to 80, over calls that can be lowered. *)
Lemma fold_lower_isnil_use (us : list nat) :
  forall c, lowerable (cmod c) us ->
            cmod (fold_left lower_isnil_use (map InstRef us) c)
            = lowered_with (cmod c) us.
Proof.
  induction us as [| u rest IH]; intros c H.
  - cbn. symmetry. apply lowered_with_nil.
  - cbn [map fold_left].
    pose proof H as (Hok & _ & _ & Hsites).
    destruct (Hsites u (or_introl eq_refl)) as (i & Hlook & _ & Hq).
    apply quiet_tail in Hq as [_ Hne].
    pose proof (lower_isnil_use_lowered c u i Hok Hlook Hne) as Hstep.
    rewrite IH; rewrite Hstep.
    + apply lowered_with_cons. exact H.
    + apply lowerable_step. exact H.
Qed.

End LoweredAll.

Section NilCheck.

Variable m : Module.
Hypothesis m_sites : sites_ok m = true.

Let isnil := NamedFunction m isnil_name.

Lemma sites_handles_ok : handles_ok m = true.
Proof.
  unfold sites_ok in m_sites.
  apply andb_prop in m_sites as [H _]. apply andb_prop in H as [H _].
  exact H.
Qed.

Lemma sites_refs_ok : refs_ok m = true.
Proof.
  unfold sites_ok in m_sites.
  apply andb_prop in m_sites as [H _]. apply andb_prop in H as [_ H].
  exact H.
Qed.

Lemma site_is_call_site (i : Instruction) :
  In i (insts m) -> uses_value isnil i = true ->
  call_site_ok m isnil i = true.
Proof.
  intros Hi Huse. unfold sites_ok in m_sites.
  apply andb_prop in m_sites as [_ H]. rewrite forallb_forall in H.
  specialize (H i Hi). fold isnil in H. rewrite Huse in H. exact H.
Qed.

Lemma site_handle_inv (u : nat) :
  In u (site_handles m) ->
  exists i, In i (insts m) /\ uses_value isnil i = true /\ inst_id i = u.
Proof.
  unfold site_handles. fold isnil. destruct (IsNil isnil); [intros [] |].
  intros H. apply in_map_iff in H as (i & Hid & Hi).
  apply filter_In in Hi as [Hin Huse]. exists i. auto.
Qed.

Lemma site_handle_intro (i : Instruction) :
  IsNil isnil = false ->
  In i (insts m) -> uses_value isnil i = true ->
  In (inst_id i) (site_handles m).
Proof.
  intros Hnil Hi Huse. unfold site_handles. fold isnil. rewrite Hnil.
  apply in_map. apply filter_In. split; assumption.
Qed.

Lemma site_of_handle (i : Instruction) :
  In i (insts m) -> In (inst_id i) (site_handles m) ->
  uses_value isnil i = true.
Proof.
  intros Hi Hin. apply site_handle_inv in Hin as (j & Hj & Huse & Hid).
  pose proof (lookup_own m i sites_handles_ok Hi) as Hown.
  pose proof (lookup_own m j sites_handles_ok Hj) as Hown'.
  rewrite Hid in Hown'. rewrite Hown in Hown'. injection Hown' as ->.
  exact Huse.
Qed.

(** The result of a call of the helper is a boolean, so it is not a
    pointer. *)
Lemma pointer_is_quiet (v : Value) :
  is_pointer (TypeOf m v) = true -> quiet (site_handles m) v.
Proof.
  intros Hptr x -> Hin.
  apply site_handle_inv in Hin as (j & Hj & Huse & Hid).
  pose proof (site_is_call_site j Hj Huse) as Hsite.
  unfold call_site_ok in Hsite. cbv zeta in Hsite.
  apply andb_prop in Hsite as [Hsite _]. apply andb_prop in Hsite as [Hsite _].
  apply andb_prop in Hsite as [Hsite _]. apply andb_prop in Hsite as [_ Hbool].
  unfold TypeOf in Hptr. rewrite <- Hid in Hptr.
  rewrite (lookup_own m j sites_handles_ok Hj) in Hptr.
  destruct (inst_ty j) as [| [| [| n]] | t |]; discriminate.
Qed.

Lemma NoDup_filter_ids (f : Instruction -> bool) (l : list Instruction) :
  NoDup (map inst_id l) -> NoDup (map inst_id (filter f l)).
Proof.
  induction l as [| i rest IH]; cbn; intros H; [constructor |].
  inversion H as [| x l' Hx Hrest]; subst.
  destruct (f i); cbn; [| apply IH; exact Hrest].
  constructor; [| apply IH; exact Hrest].
  intros Hin. apply Hx. apply in_map_iff in Hin as (j & Hid & Hj).
  apply filter_In in Hj as [Hj _]. apply in_map_iff. exists j. auto.
Qed.

Lemma sites_lowerable : lowerable m (site_handles m).
Proof.
  split; [exact sites_handles_ok |]. split; [exact sites_refs_ok |]. split.
  - unfold site_handles. destruct (IsNil _); [constructor |].
    apply NoDup_filter_ids. apply distinct_NoDup.
    pose proof sites_handles_ok as H. unfold handles_ok in H.
    apply andb_prop in H as [H _]. exact H.
  - intros u Hu. apply site_handle_inv in Hu as (i & Hi & Huse & <-).
    exists i. split; [apply lookup_own; [exact sites_handles_ok | exact Hi] |].
    pose proof (site_is_call_site i Hi Huse) as Hsite.
    unfold call_site_ok in Hsite. cbv zeta in Hsite.
    apply andb_prop in Hsite as [Hsite Hp]. apply andb_prop in Hsite as [_ Hp0].
    split; apply pointer_is_quiet; assumption.
Qed.

(** The pointer a call site compares is not the helper. *)
Lemma strip_cast_not_helper (i : Instruction) :
  IsNil isnil = false ->
  In i (insts m) -> uses_value isnil i = true ->
  Value_eqb isnil (strip_cast m (nth 0 (operands i) Nil)) = false.
Proof.
  intros Hnil Hi Huse.
  pose proof (site_is_call_site i Hi Huse) as Hsite.
  unfold call_site_ok in Hsite. cbv zeta in Hsite.
  apply andb_prop in Hsite as [Hsite _]. apply andb_prop in Hsite as [Hsite _].
  apply andb_prop in Hsite as [_ Hne]. apply negb_true_iff in Hne.
  set (p := nth 0 (operands i) Nil) in *.
  destruct (Value_eqb isnil (strip_cast m p)) eqn:Heq; [| reflexivity].
  exfalso. apply Value_eqb_eq in Heq. unfold strip_cast in Heq.
  destruct (negb (IsNil (IsABitCastInst m p))) eqn:Hcast.
  - unfold IsABitCastInst, Operand in *.
    destruct p as [| name | x | t | k t]; try discriminate.
    destruct (lookup m x) as [b |] eqn:Hlook; [| discriminate].
    destruct b as [id op ops ty]. destruct op; try discriminate.
    apply lookup_in in Hlook as [Hb _]. cbn [operands] in Heq.
    assert (Huse' : uses_value isnil (mkInst id BitCast ops ty) = true).
    { unfold uses_value. cbn [operands]. apply existsb_exists.
      exists isnil. split; [| apply Value_eqb_refl].
      destruct (nth_in_or_default 0 ops Nil) as [Hin | Hd].
      - rewrite <- Heq in Hin. exact Hin.
      - rewrite Hd in Heq. rewrite Heq in Hnil. discriminate. }
    pose proof (site_is_call_site _ Hb Huse') as Hsite.
    unfold call_site_ok, is_direct_call in Hsite. cbn in Hsite.
    discriminate.
  - rewrite <- Heq, Value_eqb_refl in Hne. discriminate.
Qed.

Lemma insts_lowered_with (us : list nat) :
  insts (lowered_with m us)
  = flat_map (lower_inst m (site_map (next_id m) us)) (insts m).
Proof.
  unfold lowered_with.
  change (insts (mkModule
                   (functions
                      (expand (lower_inst m (site_map (next_id m) us)) m))
                   (List.length us + next_id m)))
    with (insts (expand (lower_inst m (site_map (next_id m) us)) m)).
  apply insts_expand.
Qed.

Lemma redirect_not_helper (sm : list (nat * nat)) (v : Value) :
  IsNil isnil = false ->
  Value_eqb isnil v = false -> Value_eqb isnil (redirect sm v) = false.
Proof.
  intros Hnil Hv. destruct v as [| name | x | t | k t]; try exact Hv.
  cbn. destruct (assoc x sm); [| exact Hv].
  destruct (NamedFunction_cases m isnil_name) as [H | H]; fold isnil in H;
    rewrite H in *; [discriminate |].
  unfold Value_eqb. destruct (Value_eq_dec _ _); [discriminate | reflexivity].
Qed.

(** After the lowering nothing uses the helper. *)
Lemma lowered_unused :
  getUses (lowered m) (NamedFunction (lowered m) isnil_name) = [].
Proof.
  assert (Hname : NamedFunction (lowered m) isnil_name = isnil).
  { apply NamedFunction_names. unfold lowered, lowered_with.
    cbn [functions]. apply names_expand. }
  rewrite Hname. unfold getUses.
  destruct (IsNil isnil) eqn:Hnil; [reflexivity |].
  assert (Hnone : forall j, In j (insts (lowered m)) ->
                            uses_value isnil j = false).
  { intros j Hj. unfold lowered in Hj. rewrite insts_lowered_with in Hj.
    apply in_flat_map in Hj as (i & Hi & Hj). unfold lower_inst in Hj.
    destruct (assoc (inst_id i) (site_map (next_id m) (site_handles m)))
      as [y |] eqn:Hassoc; destruct Hj as [<- | []].
    - apply assoc_site_map_in in Hassoc.
      pose proof (site_of_handle i Hi Hassoc) as Huse.
      unfold uses_value, comparison. cbv zeta. cbn [operands existsb].
      rewrite (strip_cast_not_helper i Hnil Hi Huse).
      destruct (NamedFunction_cases m isnil_name) as [E | E];
        fold isnil in E; rewrite E; reflexivity.
    - assert (Hnot : uses_value isnil i = false).
      { destruct (uses_value isnil i) eqn:Huse; [| reflexivity].
        pose proof (site_handle_intro i Hnil Hi Huse) as Hin.
        destruct (assoc_site_map_some _ (next_id m) _ Hin) as (y & Hy).
        congruence. }
      unfold uses_value in *. cbn [redirect_inst operands].
      induction (operands i) as [| v ops IH]; [reflexivity |].
      cbn [map existsb] in *. apply orb_false_elim in Hnot as [Hv Hops].
      rewrite (redirect_not_helper _ v Hnil Hv), (IH Hops). reflexivity. }
  assert (Hfilter : filter (uses_value isnil) (insts (lowered m)) = []).
  { induction (insts (lowered m)) as [| j rest IH]; [reflexivity |].
    cbn. rewrite (Hnone j (or_introl eq_refl)). apply IH.
    intros k Hk. apply Hnone. right. exact Hk. }
  rewrite Hfilter. reflexivity.
Qed.

Lemma find_absent (x : nat) (l : list Instruction) :
  (forall j, In j l -> inst_id j <> x) ->
  find (fun j => inst_id j =? x) l = None.
Proof.
  induction l as [| j rest IH]; cbn; intros H; [reflexivity |].
  destruct (Nat.eqb_spec (inst_id j) x) as [Heq | _].
  - exfalso. apply (H j); [left; reflexivity | exact Heq].
  - apply IH. intros k Hk. apply H. right. exact Hk.
Qed.

(** What the lowering does with one call of the helper: its comparison
    is in the module, the uses of its result are redirected to the
    comparison, and the call itself is gone. *)
Lemma lowered_site (i : Instruction) :
  IsNil isnil = false ->
  In i (insts m) -> uses_value isnil i = true ->
  exists y,
    In (comparison m y i) (insts (lowered m))
    /\ redirect (site_map (next_id m) (site_handles m)) (InstRef (inst_id i))
       = InstRef y
    /\ lookup (lowered m) (inst_id i) = None.
Proof.
  intros Hnil Hi Huse.
  pose proof (site_handle_intro i Hnil Hi Huse) as Hin.
  destruct (assoc_site_map_some _ (next_id m) _ Hin) as (y & Hy).
  exists y. split; [| split].
  - unfold lowered. rewrite insts_lowered_with. apply in_flat_map.
    exists i. split; [exact Hi |]. unfold lower_inst. rewrite Hy.
    left. reflexivity.
  - cbn [redirect]. rewrite Hy. reflexivity.
  - unfold lookup, lowered. rewrite insts_lowered_with.
    apply find_absent. intros j Hj.
    apply in_flat_map in Hj as (k & Hk & Hj). unfold lower_inst in Hj.
    destruct (assoc (inst_id k) (site_map (next_id m) (site_handles m)))
      as [z |] eqn:Hz; destruct Hj as [<- | []].
    + cbn [comparison inst_id]. apply assoc_site_map_range in Hz.
      pose proof (handle_below m i sites_handles_ok Hi). lia.
    + cbn [redirect_inst inst_id]. intros Heq.
      assert (k = i) as ->.
      { pose proof (lookup_own m k sites_handles_ok Hk) as Hown.
        rewrite Heq, (lookup_own m i sites_handles_ok Hi) in Hown.
        congruence. }
      congruence.
Qed.

End NilCheck.

Lemma getUses_site_handles (m : Module) :
  getUses m (NamedFunction m isnil_name) = map InstRef (site_handles m).
Proof.
  unfold getUses, site_handles.
  destruct (IsNil (NamedFunction m isnil_name)); [reflexivity |].
  rewrite map_map. reflexivity.
Qed.

(** C4: when the module has no [runtime.isnil], NilCheckLowering
    leaves the compiler state as it was.  When every use of the helper
    is a well-typed call of it, the module NilCheckLowering leaves is
    the module with each call replaced, where it stood, by the
    comparison [icmp eq p, null], [p] being the pointer operand of the
    call with one layer of bitcast removed when that operand is a
    bitcast instruction and the operand itself otherwise; for each call
    the comparison is in the module, every use of the result of the
    call is a use of the result of the comparison, and the call is
    gone; and nothing uses the helper any more. *)
Theorem nil_checks_lowered (c : Compiler) :
  (NilCheckLowering c = c \/ NamedFunction (cmod c) isnil_name <> Nil)
  /\ (sites_ok (cmod c) = true ->
      cmod (NilCheckLowering c) = lowered (cmod c)
      /\ getUses (cmod (NilCheckLowering c))
                 (NamedFunction (cmod (NilCheckLowering c)) isnil_name)
         = []
      /\ forall i,
           In (InstRef (inst_id i))
              (getUses (cmod c) (NamedFunction (cmod c) isnil_name)) ->
           In i (insts (cmod c)) ->
           exists y,
             In (comparison (cmod c) y i) (insts (cmod (NilCheckLowering c)))
             /\ redirect (site_map (next_id (cmod c)) (site_handles (cmod c)))
                         (InstRef (inst_id i))
                = InstRef y
             /\ lookup (cmod (NilCheckLowering c)) (inst_id i) = None).
Proof.
  split.
  - unfold NilCheckLowering.
    destruct (NamedFunction_cases (cmod c) isnil_name) as [H | H];
      rewrite H; [left; reflexivity | right; discriminate].
  - intros Hsites.
    assert (Hmod : cmod (NilCheckLowering c) = lowered (cmod c)).
    { unfold NilCheckLowering. rewrite getUses_site_handles.
      destruct (IsNil (NamedFunction (cmod c) isnil_name)) eqn:Hnil;
        cbn [negb].
      - unfold lowered, site_handles. rewrite Hnil.
        symmetry. apply lowered_with_nil.
      - apply fold_lower_isnil_use. apply sites_lowerable. exact Hsites. }
    split; [exact Hmod |]. rewrite Hmod.
    split; [apply lowered_unused; exact Hsites |].
    intros i Huse Hi.
    assert (Hnil : IsNil (NamedFunction (cmod c) isnil_name) = false).
    { unfold getUses in Huse.
      destruct (IsNil (NamedFunction (cmod c) isnil_name));
        [destruct Huse | reflexivity]. }
    apply lowered_site; try assumption.
    rewrite getUses_site_handles in Huse.
    apply in_map_iff in Huse as (u & Hu & Hin). injection Hu as ->.
    apply (site_of_handle (cmod c) Hsites i Hi Hin).
Qed.

Lemma nil_checks_lowered_witness :
  cmod (NilCheckLowering (mkCompiler Sample.program Nil))
  = lowered Sample.program
  /\ getUses (cmod (NilCheckLowering (mkCompiler Sample.program Nil)))
             (NamedFunction
                (cmod (NilCheckLowering (mkCompiler Sample.program Nil)))
                isnil_name)
     = [].
Proof.
  pose proof (proj2 (nil_checks_lowered (mkCompiler Sample.program Nil)))
    as H.
  cbn [cmod] in H.
  assert (Hsites : sites_ok Sample.program = true)
    by (vm_compute; reflexivity).
  destruct (H Hsites) as (Hmod & Hunused & _).
  split; assumption.
Defined.

(** The two calls of the sample, one through a bitcast and one direct,
    become comparisons of the underlying pointers with null. *)
Example sample_nil_checks :
  fn_blocks
    (nth 5 (functions (cmod (NilCheckLowering (mkCompiler Sample.program Nil))))
         (Sample.declaration "" TVoid))
  = [ [ mkInst 0 BitCast [OtherValue 0 (TPtr (TInt 32))] Sample.i8ptr;
        mkInst 9 (ICmp IntEQ)
               [OtherValue 0 (TPtr (TInt 32));
                ConstPointerNull (TPtr (TInt 32))] (TInt 1);
        mkInst 10 (ICmp IntEQ)
               [OtherValue 1 Sample.i8ptr; ConstPointerNull Sample.i8ptr]
               (TInt 1);
        mkInst 3 (OtherOp 0) [InstRef 9; InstRef 10] (TInt 1);
        mkInst 4 (OtherOp 1) [InstRef 3] TVoid ];
      [ mkInst 5 Call [OtherValue 2 Sample.i8ptr; FuncRef "runtime._panic"]
               TVoid;
        mkInst 6 (OtherOp 2) [] TVoid ];
      [ mkInst 7 Call
               [OtherValue 3 Sample.i8ptr; FuncRef "runtime.runtimePanic"]
               TVoid;
        mkInst 8 (OtherOp 2) [] TVoid ] ].
Proof. vm_compute. reflexivity. Qed.

(** ** The pipeline on the sample module *)

(** An error of task lowering is returned as it is, and nothing runs
    after it. *)
Example task_lowering_error_returned :
  let r := Optimize (Sample.collaborators (Some "unsupported goroutine")
                       None true false false)
                    (mkConfig "" false) 1 0 0 (start Sample.program) in
  outcome r = Failed "unsupported goroutine"
  /\ last (final_trace r) EvOptsize
     = EvLowerGoroutines (Some "unsupported goroutine").
Proof. vm_compute. split; reflexivity. Qed.

(** A failed check after lowering ends the run with its message. *)
Example failed_verification_returned :
  let r := Optimize (Sample.collaborators None (Some "broken module")
                       true false false)
                    (mkConfig "" false) 0 0 0 (start Sample.program) in
  outcome r = Failed "optimizations caused a verification failure"
  /\ last (final_trace r) EvOptsize
     = EvVerify AfterLowering (Some "broken module").
Proof. vm_compute. split; reflexivity. Qed.

(** With [panicStrategy = "trap"], [optLevel = 1] and [sizeLevel = 2]
    the run succeeds, every panic call of the module it leaves follows
    a trap, nothing uses [runtime.isnil], every function has the
    [optsize] attribute, and [runtime.alloc] has internal linkage. *)
Example sample_end_to_end :
  let r := Optimize Sample.quiet (mkConfig "trap" true) 1 2 0
                    (start Sample.program) in
  outcome r = Done tt
  /\ traps_precede_panics (final_module r) = true
  /\ getUses (final_module r) (NamedFunction (final_module r) isnil_name)
     = []
  /\ forallb (fun f => existsb (fun a => if Attribute_eq_dec a optsize
                                         then true else false)
                               (fn_attrs f))
             (functions (final_module r)) = true
  /\ option_map fn_linkage
       (find (has_name "runtime.alloc") (functions (final_module r)))
     = Some InternalLinkage.
Proof. vm_compute. repeat split; reflexivity. Qed.

(** * Further properties of the pipeline *)

(** ** The size attribute *)

Lemma AddFunctionAttr_added (a : Attribute) (f : Function) :
  attr_added a f (AddFunctionAttr a f) /\ has_attr a (AddFunctionAttr a f) = true.
Proof.
  unfold AddFunctionAttr, has_attr, attr_added.
  destruct (existsb _ (fn_attrs f)) eqn:Hex.
  - split; [| exact Hex].
    repeat split; try reflexivity; [apply incl_refl | auto].
  - cbn [fn_name fn_ret fn_linkage fn_attrs fn_blocks]. split.
    + repeat split; try reflexivity.
      * apply incl_appl, incl_refl.
      * intros b Hb. apply in_app_or in Hb as [Hb | [<- | []]]; auto.
    + rewrite existsb_app. cbn.
      destruct (Attribute_eq_dec a a); [apply orb_true_r | contradiction].
Qed.

Lemma AddFunctionAttr_again (a : Attribute) (f : Function) :
  AddFunctionAttr a (AddFunctionAttr a f) = AddFunctionAttr a f.
Proof.
  pose proof (proj2 (AddFunctionAttr_added a f)) as H. unfold has_attr in H.
  unfold AddFunctionAttr at 1. rewrite H. reflexivity.
Qed.

(** X1: when it runs, the size step leaves every function of the
    module with the [optsize] attribute, adds nothing else and removes
    nothing (names, return types, linkage, blocks and the attributes a
    function already had are kept), and running it again changes
    nothing.  [Optimize] runs it exactly when [sizeLevel >= 2] and the
    run has passed the check after lowering. *)
Theorem size_attribute_on_every_function (K : Collaborators) (cfg : Config)
    (optLevel sizeLevel : Z) (inlinerThreshold : N) (m : Module) :
  forallb (has_attr optsize) (functions (add_optsize m)) = true
  /\ Forall2 (attr_added optsize) (functions m) (functions (add_optsize m))
  /\ next_id (add_optsize m) = next_id m
  /\ add_optsize (add_optsize m) = add_optsize m
  /\ existsb is_optsize_event
       (final_trace
          (Optimize K cfg optLevel sizeLevel inlinerThreshold (start m)))
     = (sizeLevel >=? 2)%Z
       && existsb passed_lowering_check
            (final_trace
               (Optimize K cfg optLevel sizeLevel inlinerThreshold (start m))).
Proof.
  split; [| split; [| split; [reflexivity | split]]].
  - unfold add_optsize; cbn [functions]. apply forallb_forall.
    intros f Hf. apply in_map_iff in Hf as (f0 & <- & _).
    apply AddFunctionAttr_added.
  - unfold add_optsize; cbn [functions].
    induction (functions m) as [| f rest IH]; cbn; constructor;
      [apply AddFunctionAttr_added | exact IH].
  - unfold add_optsize; cbn [functions next_id]. f_equal.
    rewrite map_map. apply map_ext. intros f. apply AddFunctionAttr_again.
  - start_run. step_run; end_run; cbn;
      repeat match goal with
      | H : (sizeLevel >=? 2)%Z = _ |- _ => rewrite H
      end; rewrite ?andb_false_r; reflexivity.
Qed.

(** ** LinkageFinalizer, run again *)

Lemma set_linkage_internal_again (name : string) (fs : list Function) :
  (forall f, find (has_name name) fs = Some f ->
             fn_linkage f = InternalLinkage) ->
  set_linkage name InternalLinkage fs = fs.
Proof.
  unfold has_name. induction fs as [| f rest IH]; cbn; intros H;
    [reflexivity |].
  destruct (String.eqb (fn_name f) name).
  - specialize (H f eq_refl). destruct f; cbn in *. subst. reflexivity.
  - f_equal. apply IH. exact H.
Qed.

Lemma reset_linkage_again (name : string) (m : Module) :
  internal_if_present name m -> reset_linkage m name = m.
Proof.
  unfold reset_linkage, NamedFunction, internal_if_present. intros H.
  destruct (existsb _ (functions m)); cbn; [| reflexivity].
  rewrite set_linkage_internal_again by exact H. destruct m; reflexivity.
Qed.

(** X2: LinkageFinalizer is idempotent: run a second time with the same
    list of names it changes nothing, whatever the module and the list. *)
Theorem linkage_finalizer_idempotent (names : list string) (m : Module) :
  LinkageFinalizer names (LinkageFinalizer names m) = LinkageFinalizer names m.
Proof.
  assert (Hfix : forall ns m',
             (forall n, In n ns -> internal_if_present n m') ->
             LinkageFinalizer ns m' = m').
  { unfold LinkageFinalizer. induction ns as [| n rest IH]; intros m' H;
      cbn; [reflexivity |].
    rewrite reset_linkage_again by (apply H; left; reflexivity).
    apply IH. intros k Hk. apply H. right. exact Hk. }
  apply Hfix. intros n Hn. apply LinkageFinalizer_sets. left. exact Hn.
Qed.

(** ** The function passes and the module passes *)




(** ** When the rewriter and the leading check run *)




(** ** When [Optimize] panics *)





(** ** The trap rewriter: what it never does *)

Section RewriterFrame.

Variables (m0 : Module) (trap : Value).
Hypothesis m0_ok : handles_ok m0 = true.

Lemma cmod_add_trap_other (c : Compiler) (use : Value) :
  (forall u, use <> InstRef u) ->
  cmod (add_trap trap c use)
  = mkModule (functions (cmod c)) (S (next_id (cmod c))).
Proof.
  intros Hno. unfold add_trap, CreateCall, build, SetInsertPointBefore.
  cbn [fst cmod insert_point]. destruct use; try reflexivity.
  exfalso. apply (Hno id). reflexivity.
Qed.

Lemma grown_add_trap_any (c : Compiler) (use : Value) :
  grown m0 trap (cmod c) -> grown m0 trap (cmod (add_trap trap c use)).
Proof.
  intros Hg. destruct use as [| name | u | t | k t];
    try (rewrite cmod_add_trap_other by discriminate;
         destruct Hg as (Horig & Hnext & Hnew);
         split; [exact Horig | split; [cbn; lia | exact Hnew]]).
  apply grown_add_trap. exact Hg.
Qed.

Lemma NoDup_insert_fresh (u n : nat) (l : list nat) :
  NoDup l -> ~ In n l ->
  NoDup (flat_map (fun x => if x =? u then [n; x] else [x]) l).
Proof.
  intros Hnd Hn. induction l as [| x rest IH]; cbn; [constructor |].
  inversion Hnd as [| y l' Hx Hrest]; subst.
  assert (Hn' : ~ In n rest) by (intros H; apply Hn; right; exact H).
  assert (Hxn : x <> n) by (intros ->; apply Hn; left; reflexivity).
  specialize (IH Hrest Hn').
  assert (Hin : forall y, In y (flat_map (fun x => if x =? u then [n; x]
                                                    else [x]) rest) ->
                          y = n \/ In y rest).
  { intros y Hy. apply in_flat_map in Hy as (z & Hz & Hy).
    destruct (z =? u); cbn in Hy.
    - destruct Hy as [<- | [<- | []]]; auto.
    - destruct Hy as [<- | []]; auto. }
  assert (Hxout : ~ In x (flat_map (fun x => if x =? u then [n; x]
                                             else [x]) rest)).
  { intros H. apply Hin in H as [H | H]; [congruence | contradiction]. }
  destruct (Nat.eqb_spec x u) as [-> | Hne]; cbn.
  - constructor.
    + intros [H | H]; [congruence |].
      assert (Hsame : flat_map (fun x => if x =? u then [n; x] else [x]) rest
                      = rest).
      { clear - Hx. induction rest as [| z r IHr]; cbn; [reflexivity |].
        destruct (Nat.eqb_spec z u) as [-> | _].
        - exfalso. apply Hx. left. reflexivity.
        - cbn. f_equal. apply IHr. intros Hu. apply Hx. right. exact Hu. }
      rewrite Hsame in H. contradiction.
    + constructor; assumption.
  - constructor; assumption.
Qed.

Lemma handles_add_trap (c : Compiler) (use : Value) :
  handles_ok (cmod c) = true -> handles_ok (cmod (add_trap trap c use)) = true.
Proof.
  intros Hok. pose proof Hok as Hok'. unfold handles_ok in Hok'.
  apply andb_prop in Hok' as [Hd Hb]. rewrite forallb_forall in Hb.
  assert (Hlt : forall x, In x (map inst_id (insts (cmod c))) ->
                          x < next_id (cmod c)).
  { intros x Hx. apply in_map_iff in Hx as (i & <- & Hi).
    apply Nat.ltb_lt, Hb, Hi. }
  destruct use as [| name | u | t | k t];
    try (rewrite cmod_add_trap_other by discriminate; unfold handles_ok;
         change (insts (mkModule (functions (cmod c)) (S (next_id (cmod c)))))
           with (insts (cmod c));
         rewrite Hd; cbn [andb next_id]; apply forallb_forall; intros i Hi;
         specialize (Hb i Hi); apply Nat.ltb_lt in Hb; apply Nat.ltb_lt; lia).
  rewrite cmod_add_trap.
  set (new := mkInst (next_id (cmod c)) Call [trap]
                     (ReturnType (cmod c) trap)).
  unfold handles_ok.
  change (insts (mkModule (functions (expand (insert_before u new) (cmod c)))
                          (S (next_id (cmod c)))))
    with (insts (expand (insert_before u new) (cmod c))).
  rewrite insts_expand. cbn [next_id]. apply andb_true_intro. split.
  - apply distinct_NoDup.
    assert (Hids : map inst_id (flat_map (insert_before u new)
                                         (insts (cmod c)))
                   = flat_map (fun x => if x =? u
                                        then [next_id (cmod c); x] else [x])
                              (map inst_id (insts (cmod c)))).
    { clear. induction (insts (cmod c)) as [| i rest IH]; cbn;
        [reflexivity |].
      rewrite map_app, IH. unfold insert_before.
      destruct (inst_id i =? u); reflexivity. }
    rewrite Hids. apply NoDup_insert_fresh.
    + apply distinct_NoDup. exact Hd.
    + intros Hin. specialize (Hlt _ Hin). lia.
  - apply forallb_forall. intros j Hj.
    apply in_flat_map in Hj as (i & Hi & Hj). unfold insert_before in Hj.
    specialize (Hb i Hi). apply Nat.ltb_lt in Hb.
    destruct (inst_id i =? u); cbn in Hj.
    + destruct Hj as [<- | [<- | []]]; apply Nat.ltb_lt; cbn [inst_id new];
        lia.
    + destruct Hj as [<- | []]. apply Nat.ltb_lt. lia.
Qed.

(** Whatever the inner loop meets, it only adds calls of [trap] and
    keeps handles unique. *)
Lemma trap_uses_keeps (fn : Value) (uses : list Value) :
  forall c,
    grown m0 trap (cmod c) -> handles_ok (cmod c) = true ->
    grown m0 trap (cmod (snd (trap_uses fn trap uses c)))
    /\ handles_ok (cmod (snd (trap_uses fn trap uses c))) = true.
Proof.
  induction uses as [| use rest IH]; intros c Hg Hok.
  - split; assumption.
  - rewrite trap_uses_cons.
    destruct (use_ok (cmod c) fn use); [| split; assumption].
    apply IH; [apply grown_add_trap_any | apply handles_add_trap]; assumption.
Qed.

Lemma trap_names_keeps (names : list string) :
  forall c,
    grown m0 trap (cmod c) -> handles_ok (cmod c) = true ->
    grown m0 trap (cmod (snd (trap_names trap names c)))
    /\ handles_ok (cmod (snd (trap_names trap names c))) = true.
Proof.
  induction names as [| name rest IH]; intros c Hg Hok.
  - split; assumption.
  - rewrite trap_names_cons.
    destruct (IsNil (NamedFunction (cmod c) name)); [apply IH; assumption |].
    unfold bind.
    pose proof (trap_uses_keeps (NamedFunction (cmod c) name)
                  (getUses (cmod c) (NamedFunction (cmod c) name)) c Hg Hok)
      as [Hg1 Hok1].
    destruct (trap_uses _ trap _ c) as [[[] | e | msg] c1]; cbn [snd] in *.
    + apply IH; assumption.
    + split; assumption.
    + split; assumption.
Qed.

End RewriterFrame.

Lemma signature_expand (g : Instruction -> list Instruction) (m : Module) :
  signatures (expand g m) = signatures m.
Proof.
  unfold signatures, expand; cbn [functions]. rewrite map_map.
  apply map_ext. intros f. reflexivity.
Qed.

(** X7: whether it ends normally or panics half way, the rewriter
    only adds calls of [llvm.trap]: removing the instructions it
    created gives back the functions it started from, every
    instruction it created is such a call, no function changes name,
    return type, linkage or attributes, and instruction handles stay
    unique. *)
Theorem rewriter_only_adds_traps (m : Module) (ip : Value) :
  handles_ok m = true ->
  let c' := snd (replacePanicsWithTrap (mkCompiler m ip)) in
  originals (next_id m) (cmod c') = functions m
  /\ (forall i, In i (insts (cmod c')) -> next_id m <= inst_id i ->
                is_trap_call (NamedFunction m "llvm.trap") i = true)
  /\ signatures (cmod c') = signatures m
  /\ handles_ok (cmod c') = true.
Proof.
  intros Hok. cbv zeta. unfold replacePanicsWithTrap. cbn [cmod].
  pose proof (trap_names_keeps m (NamedFunction m "llvm.trap") panic_names
                (mkCompiler m ip)
                (grown_refl m (NamedFunction m "llvm.trap") Hok) Hok)
    as [(Horig & _ & Hnew) Hok'].
  split; [exact Horig |]. split; [exact Hnew |]. split; [| exact Hok'].
  unfold originals in Horig.
  rewrite <- (signature_expand (keep_old (next_id m))).
  unfold signatures. rewrite Horig. reflexivity.
Qed.

Lemma rewriter_only_adds_traps_witness :
  let c' := snd (replacePanicsWithTrap (mkCompiler Sample.address_taken Nil)) in
  originals (next_id Sample.address_taken) (cmod c')
  = functions Sample.address_taken
  /\ (forall i, In i (insts (cmod c')) ->
                next_id Sample.address_taken <= inst_id i ->
                is_trap_call (NamedFunction Sample.address_taken "llvm.trap") i
                = true)
  /\ signatures (cmod c') = signatures Sample.address_taken
  /\ handles_ok (cmod c') = true.
Proof.
  apply (rewriter_only_adds_traps Sample.address_taken Nil).
  vm_compute. reflexivity.
Defined.

(** ** The trap rewriter: one trap for each use *)

Section RewriterCounts.

Variables (m0 : Module) (trap : Value).
Hypothesis m0_ok : handles_ok m0 = true.







End RewriterCounts.



(** ** NilCheckLowering: what it keeps *)

Lemma NilCheckLowering_lowered (c : Compiler) :
  sites_ok (cmod c) = true -> cmod (NilCheckLowering c) = lowered (cmod c).
Proof.
  intros Hsites. unfold NilCheckLowering. rewrite getUses_site_handles.
  destruct (IsNil (NamedFunction (cmod c) isnil_name)) eqn:Hnil; cbn [negb].
  - unfold lowered, site_handles. rewrite Hnil.
    symmetry. apply lowered_with_nil.
  - apply fold_lower_isnil_use. apply sites_lowerable. exact Hsites.
Qed.

Lemma NilCheckLowering_unused (c : Compiler) :
  getUses (cmod c) (NamedFunction (cmod c) isnil_name) = [] ->
  NilCheckLowering c = c.
Proof.
  intros H. unfold NilCheckLowering. rewrite H.
  destruct (negb _); reflexivity.
Qed.

(** X9: NilCheckLowering is idempotent on a module whose uses of the
    helper are well-typed calls: a second run finds no use of the
    helper and returns the compiler state of the first run unchanged. *)
Theorem nil_check_lowering_idempotent (c : Compiler) :
  sites_ok (cmod c) = true ->
  NilCheckLowering (NilCheckLowering c) = NilCheckLowering c.
Proof.
  intros Hsites. apply NilCheckLowering_unused.
  rewrite (NilCheckLowering_lowered c Hsites).
  apply lowered_unused. exact Hsites.
Qed.

Lemma nil_check_lowering_idempotent_witness :
  NilCheckLowering (NilCheckLowering (mkCompiler Sample.program Nil))
  = NilCheckLowering (mkCompiler Sample.program Nil).
Proof.
  apply (nil_check_lowering_idempotent (mkCompiler Sample.program Nil)).
  vm_compute. reflexivity.
Defined.

Lemma lowerable_well_formed (us : list nat) :
  forall m, lowerable m us ->
            handles_ok (lowered_with m us) = true
            /\ refs_ok (lowered_with m us) = true.
Proof.
  induction us as [| u rest IH]; intros m H.
  - rewrite lowered_with_nil. destruct H as (Hok & Href & _). auto.
  - rewrite <- (lowered_with_cons m u rest H).
    apply IH. apply lowerable_step. exact H.
Qed.

Lemma lower_inst_single (m : Module) (sm : list (nat * nat))
    (b : list Instruction) :
  List.length (flat_map (lower_inst m sm) b) = List.length b.
Proof.
  induction b as [| i rest IH]; cbn; [reflexivity |].
  rewrite length_app, IH. unfold lower_inst.
  destruct (assoc (inst_id i) sm); reflexivity.
Qed.

Lemma lowered_with_shape (m : Module) (us : list nat) :
  signatures (lowered_with m us) = signatures m
  /\ block_lengths (lowered_with m us) = block_lengths m.
Proof.
  unfold lowered_with, signatures, block_lengths, expand.
  cbn [functions]. rewrite !map_map. split.
  - apply map_ext. intros f. reflexivity.
  - apply map_ext. intros f. cbn [expand_function fn_blocks].
    rewrite map_map. apply map_ext. intros b. apply lower_inst_single.
Qed.

(** X10: on a module whose uses of the helper are well-typed calls,
    NilCheckLowering keeps the module well formed and in shape:
    instruction handles stay unique, no operand names a handle that
    does not exist yet, no function changes name, return type, linkage
    or attributes, every block keeps its length (each call gives way to
    one comparison), and the allocator advances by one for each call. *)
Theorem nil_check_lowering_keeps_shape (c : Compiler) :
  sites_ok (cmod c) = true ->
  handles_ok (cmod (NilCheckLowering c)) = true
  /\ refs_ok (cmod (NilCheckLowering c)) = true
  /\ signatures (cmod (NilCheckLowering c)) = signatures (cmod c)
  /\ block_lengths (cmod (NilCheckLowering c)) = block_lengths (cmod c)
  /\ next_id (cmod (NilCheckLowering c))
     = List.length (getUses (cmod c) (NamedFunction (cmod c) isnil_name))
       + next_id (cmod c).
Proof.
  intros Hsites. rewrite (NilCheckLowering_lowered c Hsites).
  destruct (lowerable_well_formed _ _ (sites_lowerable (cmod c) Hsites))
    as [Hok Href].
  destruct (lowered_with_shape (cmod c) (site_handles (cmod c)))
    as [Hsig Hlen].
  unfold lowered. repeat split; try assumption.
  rewrite getUses_site_handles, length_map. reflexivity.
Qed.

Lemma nil_check_lowering_keeps_shape_witness :
  handles_ok (cmod (NilCheckLowering (mkCompiler Sample.program Nil))) = true
  /\ refs_ok (cmod (NilCheckLowering (mkCompiler Sample.program Nil))) = true
  /\ signatures (cmod (NilCheckLowering (mkCompiler Sample.program Nil)))
     = signatures Sample.program
  /\ block_lengths (cmod (NilCheckLowering (mkCompiler Sample.program Nil)))
     = block_lengths Sample.program
  /\ next_id (cmod (NilCheckLowering (mkCompiler Sample.program Nil)))
     = List.length (getUses Sample.program
                      (NamedFunction Sample.program isnil_name))
       + next_id Sample.program.
Proof.
  apply (nil_check_lowering_keeps_shape (mkCompiler Sample.program Nil)).
  vm_compute. reflexivity.
Defined.

(** ** NilCheckLowering after the trap rewriter *)

Section GuardedMap.

Variables (P P' T T' : Instruction -> bool) (h : Instruction -> Instruction).

Lemma guarded_map (b : list Instruction) :
  (forall i, In i b -> P' (h i) = true -> P i = true) ->
  (forall i, In i b -> T i = true -> T' (h i) = true) ->
  forall prev prev',
    (prev = true -> prev' = true) ->
    guarded P T prev b = true -> guarded P' T' prev' (map h b) = true.
Proof.
  induction b as [| i rest IH]; intros HP HT prev prev' Hprev; cbn;
    [reflexivity |].
  intros H. apply andb_prop in H as [Hi Hrest].
  apply andb_true_intro. split.
  - destruct (P' (h i)) eqn:HP'; [| reflexivity].
    rewrite (HP i (or_introl eq_refl) HP') in Hi. apply Hprev. exact Hi.
  - apply (IH (fun j Hj => HP j (or_intror Hj))
              (fun j Hj => HT j (or_intror Hj)) (T i)); [| exact Hrest].
    apply HT. left. reflexivity.
Qed.

End GuardedMap.

(** The instruction that stands for [i] after the lowering. *)
Lemma lower_inst_map (m : Module) (sm : list (nat * nat))
    (b : list Instruction) :
  flat_map (lower_inst m sm) b
  = map (fun i => match assoc (inst_id i) sm with
                  | Some y => comparison m y i
                  | None => redirect_inst sm i
                  end) b.
Proof.
  induction b as [| i rest IH]; cbn; [reflexivity |].
  rewrite IH. unfold lower_inst. destruct (assoc (inst_id i) sm); reflexivity.
Qed.

Lemma last_map_redirect (sm : list (nat * nat)) (l : list Value) :
  last (map (redirect sm) l) Nil = redirect sm (last l Nil).
Proof.
  induction l as [| v rest IH]; [reflexivity |].
  destruct rest as [| w rest']; [reflexivity |].
  cbn [map] in *. cbn [last] in *. exact IH.
Qed.

Lemma redirect_to_function (sm : list (nat * nat)) (v : Value)
    (name : string) :
  redirect sm v = FuncRef name -> v = FuncRef name.
Proof.
  destruct v as [| n | x | t | k t]; cbn; try congruence.
  destruct (assoc x sm); discriminate.
Qed.

Lemma panic_call_names (m m' : Module) (i : Instruction) :
  map fn_name (functions m') = map fn_name (functions m) ->
  panic_call m' i = panic_call m i.
Proof.
  intros H. unfold panic_call.
  induction panic_names as [| name rest IH]; cbn; [reflexivity |].
  rewrite (NamedFunction_names m m' name H), IH. reflexivity.
Qed.

Lemma panic_call_redirected (m : Module) (sm : list (nat * nat))
    (i : Instruction) :
  panic_call m (redirect_inst sm i) = true -> panic_call m i = true.
Proof.
  unfold panic_call. intros H.
  apply existsb_exists in H as (name & Hname & H).
  apply existsb_exists. exists name. split; [exact Hname |].
  cbv zeta in *. apply andb_prop in H as [Hpresent Hcall].
  rewrite Hpresent. cbn [andb].
  destruct (NamedFunction_cases m name) as [Hn | Hn]; rewrite Hn in *;
    [discriminate |].
  unfold is_direct_call in *. cbn [redirect_inst opcode operands] in Hcall.
  destruct (opcode i); try discriminate.
  apply Value_eqb_eq in Hcall. rewrite last_map_redirect in Hcall.
  apply redirect_to_function in Hcall. rewrite Hcall.
  apply Value_eqb_refl.
Qed.

Lemma lowered_names (m : Module) (us : list nat) :
  map fn_name (functions (lowered_with m us)) = map fn_name (functions m).
Proof. unfold lowered_with. cbn [functions]. apply names_expand. Qed.

(** Lowering the nil checks keeps every panic call behind its trap. *)
Lemma NilCheckLowering_keeps_traps (c : Compiler) :
  sites_ok (cmod c) = true ->
  traps_precede_panics (cmod c) = true ->
  traps_precede_panics (cmod (NilCheckLowering c)) = true.
Proof.
  intros Hsites Htraps. rewrite (NilCheckLowering_lowered c Hsites).
  set (m := cmod c) in *. unfold traps_precede_panics in *.
  unfold lowered.
  rewrite (NamedFunction_names m _ "llvm.trap"
             (lowered_names m (site_handles m))).
  set (trap := NamedFunction m "llvm.trap") in *.
  set (sm := site_map (next_id m) (site_handles m)).
  unfold all_guarded in *. rewrite forallb_forall in Htraps.
  apply forallb_forall. intros f' Hf'.
  unfold lowered_with in Hf'. cbn [functions] in Hf'.
  unfold expand in Hf'. cbn [functions] in Hf'.
  apply in_map_iff in Hf' as (f & <- & Hf). specialize (Htraps f Hf).
  rewrite forallb_forall in Htraps. cbn [expand_function fn_blocks].
  apply forallb_forall. intros b' Hb'.
  apply in_map_iff in Hb' as (b & <- & Hb). specialize (Htraps b Hb).
  fold sm. rewrite lower_inst_map.
  apply guarded_map with (P := panic_call m) (T := is_trap_call trap)
                         (prev := false); auto.
  - intros i Hi. rewrite (panic_call_names m _ _
                            (lowered_names m (site_handles m))).
    destruct (assoc (inst_id i) sm).
    + unfold panic_call, comparison, is_direct_call. cbn [opcode].
      intros H. apply existsb_exists in H as (name & _ & H).
      rewrite andb_false_r in H. discriminate.
    + apply panic_call_redirected.
  - intros i Hi Htrap.
    assert (Hin : In i (insts m)) by (eapply in_insts; eauto).
    destruct (assoc (inst_id i) sm) as [y |] eqn:Hassoc.
    + exfalso. apply assoc_site_map_in in Hassoc.
      pose proof (site_of_handle m Hsites i Hin Hassoc) as Huse.
      assert (Hnil : IsNil (NamedFunction m isnil_name) = false).
      { unfold site_handles in Hassoc.
        destruct (IsNil (NamedFunction m isnil_name));
          [destruct Hassoc | reflexivity]. }
      unfold is_trap_call in Htrap. unfold uses_value in Huse.
      destruct (opcode i); try discriminate.
      destruct (operands i) as [| v [| w rest]]; try discriminate.
      apply Value_eqb_eq in Htrap. subst v. cbn in Huse.
      rewrite orb_false_r in Huse. apply Value_eqb_eq in Huse.
      destruct (NamedFunction_cases m isnil_name) as [Hn | Hn];
        rewrite Hn in *; [discriminate |].
      unfold trap in Huse.
      destruct (NamedFunction_cases m "llvm.trap") as [Ht | Ht];
        rewrite Ht in Huse; discriminate.
    + unfold is_trap_call in *. cbn [redirect_inst opcode operands].
      destruct (opcode i); try discriminate.
      destruct (operands i) as [| v [| w rest]]; try discriminate.
      apply Value_eqb_eq in Htrap. subst v. cbn [map].
      unfold trap. destruct (NamedFunction_cases m "llvm.trap") as [Ht | Ht];
        rewrite Ht; reflexivity.
Qed.

(** X11: NilCheckLowering does not undo the work of the trap rewriter:
    on a module whose uses of the helper are well-typed calls, if every
    call of a panic function comes immediately after a call of
    [llvm.trap], the same holds of the module NilCheckLowering
    leaves. *)
Theorem nil_check_lowering_keeps_traps (c : Compiler) :
  sites_ok (cmod c) = true ->
  traps_precede_panics (cmod c) = true ->
  traps_precede_panics (cmod (NilCheckLowering c)) = true.
Proof. apply NilCheckLowering_keeps_traps. Qed.

Lemma nil_check_lowering_keeps_traps_witness :
  traps_precede_panics
    (cmod (NilCheckLowering
             (snd (replacePanicsWithTrap (mkCompiler Sample.program Nil)))))
  = true.
Proof.
  apply (nil_check_lowering_keeps_traps
           (snd (replacePanicsWithTrap (mkCompiler Sample.program Nil))));
    vm_compute; reflexivity.
Defined.

(** ** The two rewrites of [Optimize], one after the other *)

Section RewriterThenLowering.

Variables (m0 m' : Module).
Hypothesis m0_sites : sites_ok m0 = true.
Hypothesis m'_grown : grown m0 (NamedFunction m0 "llvm.trap") m'.
Hypothesis m'_ok : handles_ok m' = true.
Hypothesis helper_present : IsNil (NamedFunction m0 isnil_name) = false.

Let trap := NamedFunction m0 "llvm.trap".
Let isnil := NamedFunction m0 isnil_name.







End RewriterThenLowering.



(** ** The trap rewriter, run again *)

Section RewriterAgain.

Variables (m0 m' : Module).
Hypothesis m0_ok : handles_ok m0 = true.
Hypothesis m'_grown : grown m0 (NamedFunction m0 "llvm.trap") m'.





End RewriterAgain.


